(** * split_gguf_proper.py: a shallow embedding and its properties

    The development embeds the GGUF splitter of
    [backup_pre_release_20251228_054353/split_gguf_proper.py]:
    [read_string], [read_metadata], [read_tensor_info], [get_tensor_size]
    and [split_gguf].

    Modelling conventions.
    - Python integers are [Z]; [struct.pack]/[struct.unpack] are written out
      over little-endian byte lists and raise [StructError] exactly where
      CPython raises [struct.error].
    - A Python [str] obtained by [bytes.decode('utf-8')] is represented by
      its UTF-8 byte sequence (decoding is injective and [encode] is its
      inverse); [decode] raises [UnicodeDecodeError] on ill-formed input.
    - A [float] obtained by [struct.unpack('<f', ..)] is represented by its
      32 raw bits; the program never computes with it.
    - The open file object [f] is a cursor over the current content of the
      file it names: [read n] returns the slice [content[pos : pos+n]],
      [seek] sets the cursor.  These two are the operations as CPython
      performs them once the request is granted; every request of the
      parsing functions is one of at most [4 * 10^6] bytes.  The copy of a
      tensor's data seeks to an offset and reads a size that the file
      itself declares: there the refusals are modelled, by [f_seek] and
      [f_read], against the limits of the host ([limits]).
    - The file system is a finite map from paths to contents and a set of
      directories; a path is the key of what it names, so the statements
      about whole runs are about paths in normal form ([normal_path]).
      [os.makedirs] and [open] raise where the state makes them raise (an
      empty path, a file where a directory is wanted, a directory where a
      file is wanted).  Permissions and the space left on the device are
      not part of the state; [print] is not modelled. *)

From Stdlib Require Import ZArith List Lia Bool String Ascii.
From Stdlib Require Import Strings.Byte.
From stdpp Require Import base option list gmap strings pretty.
Import ListNotations.
Local Open Scope Z_scope.

(** ** Python exceptions and the state-and-exception monad *)

Inductive value_error : Type :=
| EofInStringLength                       (* line 22 *)
| StringTooLarge (length position : Z)    (* line 26 *)
| EofInString (expected got : Z)          (* line 29 *)
| TooManyMetadata (num_kv : Z)            (* line 41 *)
| ArrayTooLarge (array_len : Z)           (* lines 70, 192 *)
| OffsetOverflow (offset : Z)             (* [f.seek], line 316 *)
| NegativeRead (n : Z).                   (* [f.read], line 317 *)

Inductive exn : Type :=
| ValueError (e : value_error)
| StructError
| UnicodeDecodeError
| FileNotFoundError
| ZeroDivisionError
| IndexError
| OverflowError
| MemoryError
| OSError
| IsADirectoryError
| FileExistsError
| NotADirectoryError.

Inductive result (A : Type) : Type :=
| Ok (a : A)
| Raise (e : exn).
Arguments Ok {A} a.
Arguments Raise {A} e.

Definition SE (S A : Type) : Type := S -> result A * S.

Definition se_ret {S A} (a : A) : SE S A := fun s => (Ok a, s).

Definition se_bind {S A B} (m : SE S A) (k : A -> SE S B) : SE S B :=
  fun s => match m s with
           | (Ok a, s') => k a s'
           | (Raise e, s') => (Raise e, s')
           end.

Definition raise {S A} (e : exn) : SE S A := fun s => (Raise e, s).

Definition get {S} : SE S S := fun s => (Ok s, s).
Definition put {S} (s : S) : SE S unit := fun _ => (Ok tt, s).
Definition modify {S} (g : S -> S) : SE S unit := fun s => (Ok tt, g s).

Declare Scope se_scope.
Delimit Scope se_scope with se.
Notation "'let*' x ':=' m 'in' k" := (se_bind m (fun x => k))
  (at level 10, x pattern, m at level 100, k at level 200) : se_scope.
Notation "m ';;;' k" := (se_bind m (fun _ => k))
  (at level 100, k at level 200, right associativity) : se_scope.
Local Open Scope se_scope.

(** A Python [for x in xs: body] whose body may [break]; the loop-carried
    variables are the accumulator. *)
Inductive flow (A : Type) : Type :=
| Next (a : A)
| Break (a : A).
Arguments Next {A} a.
Arguments Break {A} a.

Fixpoint for_each {S X A} (xs : list X) (body : X -> A -> SE S (flow A))
    (a : A) : SE S A :=
  match xs with
  | [] => se_ret a
  | x :: xs' =>
      let* r := body x a in
      match r with
      | Next a' => for_each xs' body a'
      | Break a' => se_ret a'
      end
  end.

(** [range(n)] *)
Definition range (n : Z) : list Z := seqZ 0 n.

(** ** Bytes and [struct] *)

Definition Z_of_byte (b : byte) : Z := Z.of_N (Byte.to_N b).

Definition byte_of_Z (z : Z) : byte :=
  match Byte.of_N (Z.to_N (z mod 256)) with
  | Some b => b
  | None => Byte.x00
  end.

Fixpoint le_decode (bs : list byte) : Z :=
  match bs with
  | [] => 0
  | b :: bs' => Z_of_byte b + 256 * le_decode bs'
  end.

Fixpoint le_encode (w : nat) (z : Z) : list byte :=
  match w with
  | O => []
  | S w' => byte_of_Z z :: le_encode w' (z / 256)
  end.

Definition len {A} (l : list A) : Z := Z.of_nat (length l).

(** [struct.unpack('<B'|'<H'|'<I'|'<Q', bs)[0]] for a width of [w] bytes *)
Definition unpack_unsigned {S} (w : nat) (bs : list byte) : SE S Z :=
  if decide (length bs = w) then se_ret (le_decode bs) else raise StructError.

(** [struct.unpack('<b'|'<h'|'<i', bs)[0]] *)
Definition unpack_signed {S} (w : nat) (bs : list byte) : SE S Z :=
  if decide (length bs = w) then
    let u := le_decode bs in
    se_ret (if 2 ^ (8 * Z.of_nat w - 1) <=? u then u - 2 ^ (8 * Z.of_nat w) else u)
  else raise StructError.

(** [struct.unpack('<?', bs)[0]] *)
Definition unpack_bool {S} (bs : list byte) : SE S bool :=
  if decide (length bs = 1%nat) then se_ret (negb (le_decode bs =? 0))
  else raise StructError.

(** [struct.pack('<I'|'<Q', v)] *)
Definition pack_unsigned {S} (w : nat) (v : Z) : SE S (list byte) :=
  if (0 <=? v) && (v <? 2 ^ (8 * Z.of_nat w)) then se_ret (le_encode w v)
  else raise StructError.

(** Well-formed UTF-8, as CPython's strict decoder accepts it. *)
Definition cont (lo hi : Z) (b : byte) : bool :=
  (lo <=? Z_of_byte b) && (Z_of_byte b <=? hi).

Fixpoint utf8_valid (bs : list byte) : bool :=
  match bs with
  | [] => true
  | b0 :: r1 =>
      let c := Z_of_byte b0 in
      if c <=? 127 then utf8_valid r1
      else match r1 with
      | [] => false
      | b1 :: r2 =>
          if (194 <=? c) && (c <=? 223) then cont 128 191 b1 && utf8_valid r2
          else match r2 with
          | [] => false
          | b2 :: r3 =>
              if c =? 224 then cont 160 191 b1 && cont 128 191 b2 && utf8_valid r3
              else if c =? 237 then cont 128 159 b1 && cont 128 191 b2 && utf8_valid r3
              else if (225 <=? c) && (c <=? 239) then
                cont 128 191 b1 && cont 128 191 b2 && utf8_valid r3
              else match r3 with
              | [] => false
              | b3 :: r4 =>
                  if c =? 240 then
                    cont 144 191 b1 && cont 128 191 b2 && cont 128 191 b3 && utf8_valid r4
                  else if (241 <=? c) && (c <=? 243) then
                    cont 128 191 b1 && cont 128 191 b2 && cont 128 191 b3 && utf8_valid r4
                  else if c =? 244 then
                    cont 128 143 b1 && cont 128 191 b2 && cont 128 191 b3 && utf8_valid r4
                  else false
              end
          end
      end
  end.

(** A Python [str], held as its UTF-8 encoding. *)
Definition pystr : Type := list byte.

(** [data.decode('utf-8')] *)
Definition decode_utf8 {S} (data : list byte) : SE S pystr :=
  if utf8_valid data then se_ret data else raise UnicodeDecodeError.

(** [s.encode('utf-8')] *)
Definition encode_utf8 (s : pystr) : list byte := s.

(** ** The file object [f] (opened ['rb']) *)

Record rfile : Type := RFile {
  content : list byte;   (* what the named file holds *)
  pos : Z;               (* the cursor *)
  reqs : list Z          (* sizes passed to [read] so far, oldest first *)
}.

(** [content[pos : pos + n]] *)
Definition slice (bs : list byte) (p n : Z) : list byte :=
  if len bs <=? p then []
  else let rest := drop (Z.to_nat p) bs in
       take (Z.to_nat (Z.min n (len rest))) rest.

(** The next [n] bytes at the cursor. *)
Definition peek (f : rfile) (n : Z) : list byte := slice (content f) (pos f) n.

(** [f.read(n)], for a size [0 <= n] that is granted: the parsing
    functions ask for at most [4 * 10^6] bytes at a time, and the copy of
    tensor data goes through [f_read] below. *)
Definition read (n : Z) : SE rfile (list byte) :=
  fun f =>
    let data := peek f n in
    (Ok data, {| content := content f; pos := pos f + len data; reqs := reqs f ++ [n] |}).

(** [f.seek(offset)], for an offset that is accepted; the one call, at
    line 316, goes through [f_seek] below. *)
Definition seek (offset : Z) : SE rfile unit :=
  fun f => (Ok tt, {| content := content f; pos := offset; reqs := reqs f |}).

(** [f.seek(0, 2)] *)
Definition seek_end : SE rfile unit :=
  fun f => (Ok tt, {| content := content f; pos := len (content f); reqs := reqs f |}).

(** [f.tell()] *)
Definition tell : SE rfile Z := fun f => (Ok (pos f), f).

(** [struct.unpack(fmt, f.read(w))[0]] *)
Definition read_unsigned (w : nat) : SE rfile Z :=
  let* bs := read (Z.of_nat w) in unpack_unsigned w bs.

Definition read_signed (w : nat) : SE rfile Z :=
  let* bs := read (Z.of_nat w) in unpack_signed w bs.

Definition read_bool : SE rfile bool :=
  let* bs := read 1 in unpack_bool bs.

(** ** [read_string] (lines 18-30) *)

Definition max_string_length : Z := 1024 * 1024.

Definition read_string : SE rfile pystr :=
  let* length_bytes := read 8 in
  if len length_bytes <? 8 then raise (ValueError EofInStringLength)
  else
    let* length := unpack_unsigned 8 length_bytes in
    if length >? max_string_length then
      let* here := tell in
      raise (ValueError (StringTooLarge length (here - 8)))
    else
      let* data := read length in
      if len data <? length then
        raise (ValueError (EofInString length (len data)))
      else decode_utf8 data.

(** ** Metadata values (Python objects) *)

Inductive pyscalar : Type :=
| PyInt (z : Z)
| PyFloat (bits : Z)
| PyBool (b : bool)
| PyStr (s : pystr).

Inductive pyval : Type :=
| PyScalar (v : pyscalar)
| PyList (l : list pyscalar).

#[global] Instance byte_eq_dec : EqDecision byte := Byte.byte_eq_dec.

#[global] Program Instance byte_countable : Countable byte :=
  inj_countable' Byte.to_N (fun n => default Byte.x00 (Byte.of_N n)) _.
Next Obligation. intros b. simpl. by rewrite Byte.of_to_N. Qed.

(** The scalar and string cases of the [value_type] chain
    (lines 47-64 of [read_metadata], lines 170-187 of [split_gguf]);
    [None] when [value_type] is none of 0..8. *)
Definition read_scalar (value_type : Z) : option (SE rfile pyscalar) :=
  if value_type =? 8 then Some (let* s := read_string in se_ret (PyStr s))
  else if value_type =? 0 then Some (let* v := read_unsigned 1 in se_ret (PyInt v))
  else if value_type =? 1 then Some (let* v := read_signed 1 in se_ret (PyInt v))
  else if value_type =? 2 then Some (let* v := read_unsigned 2 in se_ret (PyInt v))
  else if value_type =? 3 then Some (let* v := read_signed 2 in se_ret (PyInt v))
  else if value_type =? 4 then Some (let* v := read_unsigned 4 in se_ret (PyInt v))
  else if value_type =? 5 then Some (let* v := read_signed 4 in se_ret (PyInt v))
  else if value_type =? 6 then Some (let* v := read_unsigned 4 in se_ret (PyFloat v))
  else if value_type =? 7 then Some (let* b := read_bool in se_ret (PyBool b))
  else None.

(** One iteration of the element loop of an array value
    (lines 73-83 and 195-204); [skip] is what the [else] branch reads. *)
Definition read_array_element (array_type skip : Z) (value : list pyscalar)
    : SE rfile (flow (list pyscalar)) :=
  if array_type =? 8 then
    let* s := read_string in se_ret (Next (value ++ [PyStr s]))
  else if array_type =? 4 then
    let* v := read_unsigned 4 in se_ret (Next (value ++ [PyInt v]))
  else if array_type =? 5 then
    let* v := read_signed 4 in se_ret (Next (value ++ [PyInt v]))
  else if array_type =? 6 then
    let* v := read_unsigned 4 in se_ret (Next (value ++ [PyFloat v]))
  else
    let* _ := read skip in se_ret (Next value).

Definition max_array_len : Z := 1000000.

(** The [ARRAY] case (lines 65-83 and 188-204); [skip_of array_len] is the
    size the [else] branch of the element loop passes to [f.read]. *)
Definition read_array (skip_of : Z -> Z) : SE rfile pyval :=
  let* array_type := read_unsigned 4 in
  let* array_len := read_unsigned 8 in
  if array_len >? max_array_len then raise (ValueError (ArrayTooLarge array_len))
  else
    let* value := for_each (range array_len)
                    (fun _ => read_array_element array_type (skip_of array_len)) [] in
    se_ret (PyList value).

(** ** [read_metadata] (lines 32-90) *)

Definition read_metadata_entry (metadata : gmap pystr pyval)
    : SE rfile (flow (gmap pystr pyval)) :=
  let* key := read_string in
  let* value_type := read_unsigned 4 in
  match read_scalar value_type with
  | Some rd => let* value := rd in se_ret (Next (<[key := PyScalar value]> metadata))
  | None =>
      if value_type =? 9 then
        let* value := read_array (fun array_len => 4 * array_len) in
        se_ret (Next (<[key := value]> metadata))
      else
        (* Skip unknown types *)
        se_ret (Next metadata)
  end.

Definition read_metadata : SE rfile (gmap pystr pyval) :=
  let* num_kv := read_unsigned 8 in
  if num_kv >? 10000 then raise (ValueError (TooManyMetadata num_kv))
  else for_each (range num_kv) (fun _ => read_metadata_entry) ∅.

(** ** [read_tensor_info] (lines 92-105) and [get_tensor_size] (107-131) *)

Record tensor_info : Type := TensorInfo {
  name : pystr;
  dims : list Z;
  type : Z;
  offset : Z;
  size : Z     (* the ['size'] key, set at line 249 *)
}.

Definition type_sizes : gmap Z Z :=
  list_to_map [(0, 1); (1, 2); (2, 4); (3, 4); (6, 4); (7, 4); (8, 4); (9, 1);
               (10, 1); (11, 1); (12, 1); (13, 1); (14, 1)].

Definition get_tensor_size (dims : list Z) (tensor_type : Z) : Z :=
  let element_size := default 4 (type_sizes !! tensor_type) in
  let total_elements := foldl (fun total dim => total * dim) 1 dims in
  total_elements * element_size.

(** The fields [read_tensor_info] returns; ['size'] is not among them. *)
Definition read_tensor_info : SE rfile (pystr * list Z * Z * Z) :=
  let* name := read_string in
  let* n_dims := read_unsigned 4 in
  let* dims := for_each (range n_dims)
                 (fun _ dims => let* d := read_unsigned 8 in se_ret (Next (dims ++ [d])))
                 [] in
  let* tensor_type := read_unsigned 4 in
  let* offset := read_unsigned 8 in
  se_ret (name, dims, tensor_type, offset).

(** ** The parsing part of [split_gguf] (lines 143-262) *)

Definition GGUF_MAGIC : list byte := [Byte.x47; Byte.x47; Byte.x55; Byte.x46].
Definition GGUF_VERSION : Z := 3.

(** One entry of the general metadata (lines 164-213). *)
Definition general_metadata_entry (metadata : gmap pystr pyval)
    : SE rfile (flow (gmap pystr pyval)) :=
  let* key := read_string in
  let* value_type := read_unsigned 4 in
  match read_scalar value_type with
  | Some rd => let* value := rd in se_ret (Next (<[key := PyScalar value]> metadata))
  | None =>
      if value_type =? 9 then
        let* value := read_array (fun _ => 4) in
        se_ret (Next (<[key := value]> metadata))
      else
        (* Skip unknown types - try to skip 4 bytes as a guess *)
        let* _ := read 4 in
        se_ret (Next metadata)
  end.

(** One element of an array in the tensor metadata (lines 234-239). *)
Definition skip_array_element (array_type : Z) : SE rfile (flow unit) :=
  if array_type =? 8 then
    let* _ := read_string in se_ret (Next tt)
  else if (array_type =? 4) || (array_type =? 5) || (array_type =? 6) then
    let* _ := read 4 in se_ret (Next tt)
  else
    let* _ := read 4 in se_ret (Next tt).

(** One entry of the tensor metadata, read and dropped (lines 219-239). *)
Definition skip_tensor_metadata_entry : SE rfile (flow unit) :=
  let* _ := read_string in
  let* value_type := read_unsigned 4 in
  if value_type =? 8 then
    let* _ := read_string in se_ret (Next tt)
  else if (value_type =? 0) || (value_type =? 1) || (value_type =? 7) then
    let* _ := read 1 in se_ret (Next tt)
  else if (value_type =? 2) || (value_type =? 3) then
    let* _ := read 2 in se_ret (Next tt)
  else if (value_type =? 4) || (value_type =? 5) || (value_type =? 6) then
    let* _ := read 4 in se_ret (Next tt)
  else if value_type =? 9 then
    let* array_type := read_unsigned 4 in
    let* array_len := read_unsigned 8 in
    let* _ := for_each (range array_len) (fun _ _ => skip_array_element array_type) tt in
    se_ret (Next tt)
  else se_ret (Next tt).

(** What the parsing part leaves in the local variables. *)
Record container : Type := Container {
  version : Z;
  metadata : gmap pystr pyval;
  num_tensors : Z;
  tensors : list tensor_info;
  file_size : Z;
  data_start : Z
}.

(** Lines 247-250: one tensor descriptor, with its ['size']. *)
Definition read_tensor (tensors : list tensor_info)
    : SE rfile (flow (list tensor_info)) :=
  let* tensor_info := read_tensor_info in
  let '(name, dims, tensor_type, offset) := tensor_info in
  se_ret (Next (tensors ++
    [{| name := name; dims := dims; type := tensor_type; offset := offset;
        size := get_tensor_size dims tensor_type |}])).

(** Lines 153-262: the counts, both metadata sections, the descriptors. *)
Definition read_sections (version : Z) : SE rfile (option container) :=
  let* general_metadata_count := read_unsigned 8 in
  let* tensor_metadata_count := read_unsigned 8 in
  let* metadata := for_each (range general_metadata_count)
                     (fun _ => general_metadata_entry) ∅ in
  let* _ := for_each (range tensor_metadata_count)
              (fun _ _ => skip_tensor_metadata_entry) tt in
  let* num_tensors := read_unsigned 8 in
  let* tensors := for_each (range num_tensors) (fun _ => read_tensor) [] in
  let* _ := seek_end in
  let* file_size := tell in
  let* data_start := tell in
  se_ret (Some {| version := version; metadata := metadata;
                  num_tensors := num_tensors; tensors := tensors;
                  file_size := file_size; data_start := data_start |}).

(** Lines 145-262; [None] is the [return False] of line 148. *)
Definition read_container : SE rfile (option container) :=
  let* magic := read 4 in
  if negb (bool_decide (magic = GGUF_MAGIC)) then se_ret None
  else
    let* version := read_unsigned 4 in
    read_sections version.

(** ** The file system and the rest of [split_gguf] (lines 133-327) *)

Inductive event : Type :=
| EvMakedirs (path : string)
| EvOpenRead (path : string)
| EvOpenWrite (path : string)
| EvRead (path : string) (n : Z)
| EvWrite (path : string) (data : list byte).

(** What the host grants: the largest byte string its allocator hands out
    and the largest offset its file system accepts. *)
Record host : Type := Host {
  max_alloc : Z;
  max_offset : Z
}.

Record state : Type := State {
  files : gmap string (list byte);   (* regular files and what they hold *)
  dirs : gset string;                (* directories *)
  cursor : Z;                        (* the position of [f] *)
  log : list event;                  (* what was done so far, oldest first *)
  limits : host                      (* what the host grants *)
}.

(** The prefixes of a path that end before a ["/"]: the directories on the
    way to it. *)
Fixpoint prefixes (pre rest : string) : list string :=
  match rest with
  | EmptyString => []
  | String c r =>
      (if Ascii.eqb c "/" && negb (String.eqb pre "") then [pre] else [])
      ++ prefixes (pre +:+ String c EmptyString) r
  end.

Definition ancestors (path : string) : list string := prefixes "" path.

(** The directories that exist once [os.makedirs(output_dir)] has
    succeeded. *)
Definition made_dirs (output_dir : string) : gset string :=
  list_to_set (ancestors output_dir) ∪ {[output_dir]}.

(** [os.makedirs(output_dir, exist_ok=True)]: [mkdir] of the empty path
    fails with [ENOENT], of the path of a regular file with [EEXIST], of a
    path through a regular file with [ENOTDIR]; a directory that exists
    is left as it is. *)
Definition makedirs (output_dir : string) : SE state unit :=
  fun s =>
    let called d := {| files := files s; dirs := d; cursor := cursor s;
                       log := log s ++ [EvMakedirs output_dir];
                       limits := limits s |} in
    if bool_decide (output_dir = "")%string then
      (Raise FileNotFoundError, called (dirs s))
    else if bool_decide (is_Some (files s !! output_dir)) then
      (Raise FileExistsError, called (dirs s))
    else if bool_decide (Exists (fun a => is_Some (files s !! a))
                                (ancestors output_dir)) then
      (Raise NotADirectoryError, called (dirs s))
    else (Ok tt, called (made_dirs output_dir ∪ dirs s)).

(** [open(input_file, 'rb')]: a directory cannot be opened ([EISDIR]), a
    path through a regular file names nothing that could be ([ENOTDIR]),
    and a path at which there is nothing is not found ([ENOENT]). *)
Definition open_rb (input_file : string) : SE state unit :=
  fun s =>
    let s' := {| files := files s; dirs := dirs s; cursor := 0;
                 log := log s ++ [EvOpenRead input_file];
                 limits := limits s |} in
    match files s !! input_file with
    | Some _ => (Ok tt, s')
    | None =>
        if bool_decide (input_file ∈ dirs s) then (Raise IsADirectoryError, s')
        else if bool_decide (Exists (fun a => is_Some (files s !! a))
                                    (ancestors input_file))
        then (Raise NotADirectoryError, s')
        else (Raise FileNotFoundError, s')
    end.

(** An operation on the file object [f], which reads [input_file]. *)
Definition on_f {A} (input_file : string) (m : SE rfile A) : SE state A :=
  fun s =>
    let f := {| content := default [] (files s !! input_file);
                pos := cursor s; reqs := [] |} in
    let '(r, f') := m f in
    (r, {| files := files s; dirs := dirs s; cursor := pos f';
           log := log s ++ (EvRead input_file <$> reqs f');
           limits := limits s |}).

(** The largest size [f.read] is granted and the largest offset [f.seek]
    accepts.  CPython itself refuses a size of [2^63 - 33] or more and an
    offset of [2^63] or more; below that the allocator and the file system
    of the host decide.  Every host is taken to grant the [4 * 10^6] bytes
    the parsing functions may ask for. *)
Definition alloc_limit (s : state) : Z :=
  Z.min (2 ^ 63 - 34) (Z.max 4000000 (max_alloc (limits s))).

Definition offset_limit (s : state) : Z :=
  Z.min (2 ^ 63 - 1) (max_offset (limits s)).

(** [f.seek(offset)] with an offset taken from the file (line 316): an
    offset that does not fit [off_t] is a [ValueError], one the file
    system refuses an [OSError]; the cursor then stays where it is. *)
Definition f_seek (input_file : string) (offset : Z) : SE state unit :=
  fun s =>
    if 2 ^ 63 <=? offset then (Raise (ValueError (OffsetOverflow offset)), s)
    else if (offset <? 0) || (offset_limit s <? offset) then (Raise OSError, s)
    else on_f input_file (seek offset) s.

(** [f.read()] to the end of the file, which is what [f.read(-1)] is. *)
Definition read_rest : SE rfile (list byte) :=
  fun f =>
    let data := drop (Z.to_nat (pos f)) (content f) in
    (Ok data, {| content := content f; pos := pos f + len data;
                 reqs := reqs f ++ [-1] |}).

(** [f.read(n)] with a size computed from the file (line 317): the byte
    string for the result is allocated before anything is read, so a size
    that is too large is an [OverflowError] and one the allocator refuses
    a [MemoryError], however short the file is. *)
Definition f_read (input_file : string) (n : Z) : SE state (list byte) :=
  fun s =>
    if n <? -1 then (Raise (ValueError (NegativeRead n)), s)
    else if n =? -1 then on_f input_file read_rest s
    else if 2 ^ 63 - 34 <? n then (Raise OverflowError, s)
    else if alloc_limit s <? n then (Raise MemoryError, s)
    else on_f input_file (read n) s.

(** [open(shard_path, 'wb')]: the file is created, or emptied if it is
    there; its directory is the output directory, which [os.makedirs] has
    made. *)
Definition open_wb (shard_path : string) : SE state unit :=
  fun s =>
    if bool_decide (shard_path ∈ dirs s) then
      (Raise IsADirectoryError,
       {| files := files s; dirs := dirs s; cursor := cursor s;
          log := log s ++ [EvOpenWrite shard_path]; limits := limits s |})
    else
      (Ok tt,
       {| files := <[shard_path := []]> (files s); dirs := dirs s;
          cursor := cursor s; log := log s ++ [EvOpenWrite shard_path];
          limits := limits s |}).

(** [shard_f.write(data)] *)
Definition write (shard_path : string) (data : list byte) : SE state unit :=
  modify (fun s => {| files := alter (fun old => old ++ data) shard_path (files s);
                      dirs := dirs s; cursor := cursor s;
                      log := log s ++ [EvWrite shard_path data];
                      limits := limits s |}).

(** [shard_f.write(struct.pack(fmt, v))] *)
Definition write_unsigned (shard_path : string) (w : nat) (v : Z) : SE state unit :=
  let* packed := pack_unsigned w v in write shard_path packed.

(** [os.path.join(a, b)] for a relative [b] *)
Definition path_join (a b : string) : string :=
  if bool_decide (a = "")%string then b
  else if bool_decide (String.substring (String.length a - 1) 1 a = "/")%string
       then a +:+ b
       else a +:+ "/" +:+ b.

(** [os.path.join(output_dir, f"shard-{shard_num}.gguf")] (line 278) *)
Definition shard_path (output_dir : string) (shard_num : Z) : string :=
  path_join output_dir ("shard-" +:+ pretty shard_num +:+ ".gguf").

(** The components of a path, split at every ["/"]. *)
Fixpoint split_slash (path : string) : list string :=
  match path with
  | EmptyString => [EmptyString]
  | String c r =>
      if Ascii.eqb c "/" then EmptyString :: split_slash r
      else match split_slash r with
           | [] => [String c EmptyString]
           | h :: t => String c h :: t
           end
  end.

(** Paths in normal form, relative to the working directory: no
    component is empty, ["."] or [".."] (so there is no ["/"] in front, at
    the end or twice in a row).  Two such paths name the same place exactly
    when they are the same string. *)
Definition normal_path (path : string) : bool :=
  forallb (fun c => negb (String.eqb c "") && negb (String.eqb c ".")
                    && negb (String.eqb c ".."))
          (split_slash path).

(** [tensors[tensor_idx]] for a non-negative index *)
Definition index {S A} (l : list A) (i : Z) : SE S A :=
  match l !! Z.to_nat i with
  | Some x => se_ret x
  | None => raise IndexError
  end.

(** The body of the tensor loop (lines 300-321); the loop-carried variables
    are [tensor_idx] and [shard_data_offset]. *)
Definition write_tensor (input_file shard : string) (c : container)
    (acc : Z * Z) : SE state (flow (Z * Z)) :=
  let '(tensor_idx, shard_data_offset) := acc in
  if tensor_idx >=? num_tensors c then se_ret (Break acc)
  else
    let* tensor := index (tensors c) tensor_idx in
    let name_bytes := encode_utf8 (name tensor) in
    write_unsigned shard 8 (len name_bytes) ;;;
    write shard name_bytes ;;;
    write_unsigned shard 4 (len (dims tensor)) ;;;
    for_each (dims tensor)
      (fun dim _ => write_unsigned shard 8 dim ;;; se_ret (Next tt)) tt ;;;
    write_unsigned shard 4 (type tensor) ;;;
    write_unsigned shard 8 shard_data_offset ;;;
    f_seek input_file (offset tensor) ;;;
    let* tensor_data := f_read input_file (size tensor) in
    write shard tensor_data ;;;
    se_ret (Next (tensor_idx + 1, shard_data_offset + len tensor_data)).

(** The body of the shard loop (lines 278-321); the loop-carried variable
    is [tensor_idx]. *)
Definition write_shard (input_file output_dir : string) (c : container)
    (tensors_per_shard remainder : Z) (shard_num : Z) (tensor_idx : Z)
    : SE state (flow Z) :=
  let shard := shard_path output_dir shard_num in
  open_wb shard ;;;
  write shard GGUF_MAGIC ;;;
  write_unsigned shard 4 (version c) ;;;
  write_unsigned shard 8 0 ;;;
  let shard_tensor_count :=
    tensors_per_shard + (if shard_num <? remainder then 1 else 0) in
  write_unsigned shard 8 shard_tensor_count ;;;
  let* acc := for_each (range shard_tensor_count)
                (fun _ => write_tensor input_file shard c)
                (tensor_idx, data_start c) in
  se_ret (Next (fst acc)).

Definition split_gguf (input_file : string) (num_shards : Z) (output_dir : string)
    : SE state bool :=
  makedirs output_dir ;;;
  open_rb input_file ;;;
  let* parsed := on_f input_file read_container in
  match parsed with
  | None => se_ret false
  | Some c =>
      if num_shards =? 0 then raise ZeroDivisionError
      else
        let tensors_per_shard := num_tensors c / num_shards in
        let remainder := num_tensors c mod num_shards in
        let* _ := for_each (range num_shards)
                    (write_shard input_file output_dir c tensors_per_shard remainder)
                    0 in
        se_ret true
  end.

(** ** Sample inputs *)

Definition ascii_bytes (s : string) : list byte :=
  (fun a => byte_of_Z (Z.of_N (N_of_ascii a))) <$> String.list_ascii_of_string s.

(** A descriptor as the format lays it out. *)
Definition descriptor_bytes (name : list byte) (dims : list Z) (type offset : Z)
    : list byte :=
  le_encode 8 (len name) ++ name ++ le_encode 4 (len dims)
  ++ concat (le_encode 8 <$> dims) ++ le_encode 4 type ++ le_encode 8 offset.

(** A version-3 file without metadata: header, descriptors, payload. *)
Definition sample_file (descs : list (list byte)) (payload : list byte) : list byte :=
  GGUF_MAGIC ++ le_encode 4 3 ++ le_encode 8 0 ++ le_encode 8 0
  ++ le_encode 8 (len descs) ++ concat descs ++ payload.

(** A host that hands out 4 GiB at a time and accepts offsets up to 16 TiB. *)
Definition sample_host : host := {| max_alloc := 2 ^ 32; max_offset := 2 ^ 44 |}.

Definition initial (input_file : string) (src : list byte) : state :=
  {| files := {[input_file := src]}; dirs := ∅; cursor := 0; log := [];
     limits := sample_host |}.

Definition src3 : list byte :=
  sample_file [descriptor_bytes (ascii_bytes "a") [2] 0 131;
               descriptor_bytes (ascii_bytes "b") [3] 0 133;
               descriptor_bytes (ascii_bytes "c") [1] 0 136]
              (ascii_bytes "AABBBC").

(** A length field of [2^40] followed by a short payload. *)
Definition oversized_file : rfile :=
  {| content := le_encode 8 (2 ^ 40) ++ ascii_bytes "payload"; pos := 0; reqs := [] |}.

Definition at_start (bs : list byte) : rfile :=
  {| content := bs; pos := 0; reqs := [] |}.

(** A file whose version field holds 99, with no metadata and no tensors. *)
Definition version99_file : list byte :=
  GGUF_MAGIC ++ le_encode 4 99 ++ le_encode 8 0 ++ le_encode 8 0 ++ le_encode 8 0.

(** A file whose first four bytes are not the magic. *)
Definition bad_magic_file : list byte :=
  ascii_bytes "GGML" ++ le_encode 4 3 ++ le_encode 8 0 ++ le_encode 8 0 ++ le_encode 8 0.

(** A version-3 file with two general metadata entries and no tensors:
    key "k" with the unknown type tag 99 (followed by four bytes), and key
    "arr", an array of two elements of the element type 0 (four bytes each). *)
Definition unknown_tags_file : list byte :=
  GGUF_MAGIC ++ le_encode 4 3 ++ le_encode 8 2 ++ le_encode 8 0
  ++ (le_encode 8 1 ++ ascii_bytes "k" ++ le_encode 4 99 ++ le_encode 4 7)
  ++ (le_encode 8 3 ++ ascii_bytes "arr" ++ le_encode 4 9
      ++ le_encode 4 0 ++ le_encode 8 2 ++ le_encode 4 1 ++ le_encode 4 2)
  ++ le_encode 8 0.

(** A metadata entry at the cursor: key "k", type tag 99. *)
Definition unknown_entry : rfile :=
  at_start (le_encode 8 1 ++ ascii_bytes "k" ++ le_encode 4 99 ++ le_encode 4 7).

(** ** What a run leaves in a shard file *)

(** The header of a shard (lines 283-295). *)
Definition header_bytes (version count : Z) : list byte :=
  GGUF_MAGIC ++ le_encode 4 version ++ le_encode 8 0 ++ le_encode 8 count.

(** What one pass of the tensor loop emits: the tensor, the value of
    [shard_data_offset] written into its descriptor, the bytes read for it. *)
Record written : Type := Written {
  w_tensor : tensor_info;
  w_offset : Z;
  w_data : list byte
}.

Definition written_descriptor (x : written) : list byte :=
  descriptor_bytes (encode_utf8 (name (w_tensor x))) (dims (w_tensor x))
                   (type (w_tensor x)) (w_offset x).

Definition written_bytes (x : written) : list byte :=
  written_descriptor x ++ w_data x.

(** The passes of the tensor loop over [group], from a source holding [src],
    with [shard_data_offset] starting at [off] (lines 298-321). *)
Fixpoint copy_items (src : list byte) (group : list tensor_info) (off : Z)
    : list written :=
  match group with
  | [] => []
  | tensor :: rest =>
      let tensor_data := slice src (offset tensor) (size tensor) in
      {| w_tensor := tensor; w_offset := off; w_data := tensor_data |}
        :: copy_items src rest (off + len tensor_data)
  end.

Definition shard_bytes (version count : Z) (items : list written) : list byte :=
  header_bytes version count ++ concat (written_bytes <$> items).

(** [shard_tensor_count] of line 292, and the value of [tensor_idx] when
    shard [i] begins. *)
Definition shard_count (total num_shards i : Z) : Z :=
  total / num_shards + (if i <? total mod num_shards then 1 else 0).

Definition shard_start (total num_shards i : Z) : Z :=
  i * (total / num_shards) + Z.min i (total mod num_shards).

(** The tensors shard [i] takes: [tensors[start : start + count]]. *)
Definition shard_group (tensors : list tensor_info) (num_shards i : Z)
    : list tensor_info :=
  take (Z.to_nat (shard_count (len tensors) num_shards i))
       (drop (Z.to_nat (shard_start (len tensors) num_shards i)) tensors).

(** The values [struct.pack] accepts for the fields of a descriptor. *)
Definition packable (t : tensor_info) : Prop :=
  len (name t) < 2 ^ 64 /\ len (dims t) < 2 ^ 32
  /\ Forall (fun d => 0 <= d < 2 ^ 64) (dims t) /\ 0 <= type t < 2 ^ 32.

(** [s'] is [s] after [bs] was appended to the file at [p]. *)
Definition appends (p : string) (bs : list byte) (s s' : state) : Prop :=
  files s' !! p = (fun old => old ++ bs) <$> files s !! p
  /\ (forall q, q <> p -> files s' !! q = files s !! q)
  /\ dirs s' = dirs s
  /\ log s `prefix_of` log s'
  /\ limits s' = limits s.

(** What the parsing part guarantees about its result. *)
Definition well_formed (c : container) : Prop :=
  num_tensors c = len (tensors c)
  /\ num_tensors c < 2 ^ 64
  /\ 0 <= version c < 2 ^ 32
  /\ Forall packable (tensors c)
  /\ 0 <= data_start c.

(** Every value of [shard_data_offset] fits the 8-byte offset field. *)
Definition offsets_fit (src : list byte) (c : container) : Prop :=
  data_start c + len (tensors c) * len src < 2 ^ 64.

(** What the shard loop leaves in the file of shard [i]. *)
Definition shard_items (src : list byte) (c : container) (num_shards i : Z)
    : list written :=
  copy_items src (shard_group (tensors c) num_shards i) (data_start c).

Definition shard_file (src : list byte) (c : container) (num_shards i : Z)
    : list byte :=
  shard_bytes (version c) (shard_count (len (tensors c)) num_shards i)
              (shard_items src c num_shards i).

(** A state that is a file system (one without links): every file and
    every directory is known by its path in normal form and lies in
    directories that are there, and nothing is both a file and a
    directory. *)
Definition well_formed_fs (s : state) : Prop :=
  (forall p, is_Some (files s !! p) \/ p ∈ dirs s ->
             normal_path p = true /\ Forall (fun a => a ∈ dirs s) (ancestors p))
  /\ (forall p, is_Some (files s !! p) -> p ∉ dirs s).

(** [os.makedirs(output_dir, exist_ok=True)] succeeds: the path is in
    normal form (so it is not empty), and neither it nor a directory on
    the way to it is a regular file. *)
Definition can_makedirs (s : state) (output_dir : string) : Prop :=
  normal_path output_dir = true
  /\ files s !! output_dir = None
  /\ Forall (fun a => files s !! a = None) (ancestors output_dir).

(** The host grants the copy of [t]: the seek to its offset and the read
    of its size. *)
Definition grantable (s : state) (t : tensor_info) : Prop :=
  0 <= offset t <= offset_limit s /\ 0 <= size t <= alloc_limit s.

(** A run on a source that parses, with at least one shard, whose offsets
    fit their field, and whose shard paths are not the input's path;
    the state is a file system in which the output directory can be
    made and no shard path is a directory, and the host grants the copy
    of every tensor. *)
Definition valid_run (input_file output_dir : string) (num_shards : Z)
    (s : state) (src : list byte) (c : container) : Prop :=
  files s !! input_file = Some src
  /\ (read_container (at_start src)).1 = Ok (Some c)
  /\ 1 <= num_shards
  /\ offsets_fit src c
  /\ (forall i, 0 <= i < num_shards -> shard_path output_dir i <> input_file)
  /\ well_formed_fs s
  /\ can_makedirs s output_dir
  /\ (forall i, 0 <= i < num_shards -> shard_path output_dir i ∉ dirs s)
  /\ Forall (grantable s) (tensors c).

(** The catalog of a sample file. *)
Definition catalog_of (src : list byte) : container :=
  match (read_container (at_start src)).1 with
  | Ok (Some c) => c
  | _ => {| version := 0; metadata := ∅; num_tensors := 0; tensors := [];
            file_size := 0; data_start := 0 |}
  end.

Definition c3 : container := Eval vm_compute in catalog_of src3.

Definition sample_run (num_shards : Z) : state :=
  (split_gguf "m.gguf" num_shards "out" (initial "m.gguf" src3)).2.

Definition tensor_a : tensor_info :=
  {| name := ascii_bytes "a"; dims := [2]; type := 0; offset := 131; size := 2 |}.
Definition tensor_b : tensor_info :=
  {| name := ascii_bytes "b"; dims := [3]; type := 0; offset := 133; size := 3 |}.
Definition tensor_c : tensor_info :=
  {| name := ascii_bytes "c"; dims := [1]; type := 0; offset := 136; size := 1 |}.

(** What the run on [src3] with two shards writes for shard 0. *)
Definition shard0_items : list written :=
  [ {| w_tensor := tensor_a; w_offset := 137; w_data := ascii_bytes "AA" |};
    {| w_tensor := tensor_b; w_offset := 139; w_data := ascii_bytes "BBB" |} ].

(** A source whose only tensor claims ten bytes at offset 65, where the
    file holds two. *)
Definition src_short : list byte :=
  sample_file [descriptor_bytes (ascii_bytes "a") [10] 0 65] (ascii_bytes "AA").

Definition tensor_short : tensor_info :=
  {| name := ascii_bytes "a"; dims := [10]; type := 0; offset := 65; size := 10 |}.

Definition c_short : container := Eval vm_compute in catalog_of src_short.

(** [s'] has the directories of [s] and a log that continues the log of [s]. *)
Definition keeps (s s' : state) : Prop :=
  dirs s' = dirs s /\ log s `prefix_of` log s'.

(** A computation that neither creates nor removes a directory, and only
    adds to the log, however it ends. *)
Definition steady {A} (m : SE state A) : Prop :=
  forall s, keeps s (m s).2.

(** A version-3 source with one tensor of two bytes, and one with none. *)
Definition src1 : list byte :=
  sample_file [descriptor_bytes (ascii_bytes "a") [2] 0 65] (ascii_bytes "AA").

Definition src0 : list byte := sample_file [] [].

Definition tensor_1 : tensor_info :=
  {| name := ascii_bytes "a"; dims := [2]; type := 0; offset := 65; size := 2 |}.

(** The parsing part of [split_gguf], run on the file at [path]. *)
Definition reread (s : state) (path : string) : result (option container) :=
  (read_container (at_start (default [] (files s !! path)))).1.

(** ** Vocabulary for the statements about reading *)

(** The bytes [bs] lie ahead of the cursor of [f]. *)
Definition ahead (f : rfile) (bs : list byte) : Prop :=
  0 <= pos f /\ exists rest, drop (Z.to_nat (pos f)) (content f) = bs ++ rest.

(** What [f] is after [n] bytes were requested and [k] of them were there. *)
Definition advanced (f : rfile) (n k : Z) : rfile :=
  {| content := content f; pos := pos f + k; reqs := reqs f ++ [n] |}.

(** A length-prefixed string as lines 307-308 write it. *)
Definition string_bytes (s : pystr) : list byte :=
  le_encode 8 (len (encode_utf8 s)) ++ encode_utf8 s.


(** The descriptor of a catalog entry, as the format lays it out. *)
Definition descriptor_of (t : tensor_info) : list byte :=
  descriptor_bytes (encode_utf8 (name t)) (dims t) (type t) (offset t).

(** A catalog entry that [read_tensor_info] and line 249 can produce. *)
Definition readable (t : tensor_info) : Prop :=
  utf8_valid (name t) = true
  /\ len (name t) <= max_string_length
  /\ len (dims t) < 2 ^ 32
  /\ Forall (fun d => 0 <= d < 2 ^ 64) (dims t)
  /\ 0 <= type t < 2 ^ 32
  /\ 0 <= offset t < 2 ^ 64
  /\ size t = get_tensor_size (dims t) (type t).


(** A computation on [f] that leaves the file's bytes alone, however it
    ends: [f] is opened for reading and only read, sought and asked where
    it is. *)
Definition unchanged {A} (m : SE rfile A) : Prop :=
  forall f, content (m f).2 = content f.


(** ** Vocabulary for the statements about [read_metadata] *)

(** Two kinds of metadata value, and a key-value entry as the format lays
    it out: the key, the value's type tag (4 for UINT32, 8 for STRING),
    the value. *)
Inductive entry_value : Type :=
| EUInt32 (v : Z)
| EString (s : pystr).

Definition entry_bytes (e : pystr * entry_value) : list byte :=
  string_bytes e.1 ++
  match e.2 with
  | EUInt32 v => le_encode 4 4 ++ le_encode 4 v
  | EString s => le_encode 4 8 ++ string_bytes s
  end.

Definition entry_ok (e : pystr * entry_value) : Prop :=
  utf8_valid e.1 = true /\ len e.1 <= max_string_length
  /\ match e.2 with
     | EUInt32 v => 0 <= v < 2 ^ 32
     | EString s => utf8_valid s = true /\ len s <= max_string_length
     end.

(** The Python value [read_metadata] stores for an entry. *)
Definition entry_pyval (v : entry_value) : pyval :=
  match v with
  | EUInt32 v => PyScalar (PyInt v)
  | EString s => PyScalar (PyStr s)
  end.

(** [metadata[key] = value] for each entry in turn. *)
Definition assign_all (es : list (pystr * entry_value)) : gmap pystr pyval :=
  foldl (fun md e => <[e.1 := entry_pyval e.2]> md) ∅ es.

Definition metadata_bytes (es : list (pystr * entry_value)) : list byte :=
  le_encode 8 (len es) ++ concat (entry_bytes <$> es).


(** A whole file as the reading part of [split_gguf] takes it: magic,
    version, the two metadata counts, the general entries, the tensor
    metadata entries, the tensor count, the descriptors, the payload. *)
Definition container_bytes (v : Z) (general tensor_md : list (pystr * entry_value))
    (ts : list tensor_info) (payload : list byte) : list byte :=
  GGUF_MAGIC ++ le_encode 4 v
  ++ le_encode 8 (len general) ++ le_encode 8 (len tensor_md)
  ++ concat (entry_bytes <$> general) ++ concat (entry_bytes <$> tensor_md)
  ++ le_encode 8 (len ts) ++ concat (descriptor_of <$> ts) ++ payload.

(** * Properties *)

(** ** The monad *)

Lemma bind_ok {S A B} (m : SE S A) (k : A -> SE S B) s a s1 :
  m s = (Ok a, s1) -> se_bind m k s = k a s1.
Proof. intros H. unfold se_bind. by rewrite H. Qed.

Lemma bind_raise {S A B} (m : SE S A) (k : A -> SE S B) s e s1 :
  m s = (Raise e, s1) -> se_bind m k s = (Raise e, s1).
Proof. intros H. unfold se_bind. by rewrite H. Qed.

Lemma bind_ok_inv {S A B} (m : SE S A) (k : A -> SE S B) s b s2 :
  se_bind m k s = (Ok b, s2) ->
  exists a s1, m s = (Ok a, s1) /\ k a s1 = (Ok b, s2).
Proof.
  unfold se_bind. destruct (m s) as [[a|e] s1]; [eauto | discriminate].
Qed.

(** ** Bytes *)

Lemma Z_of_byte_range b : 0 <= Z_of_byte b < 256.
Proof.
  unfold Z_of_byte. pose proof (Byte.to_N_bounded b) as H. lia.
Qed.

Lemma le_decode_range bs : 0 <= le_decode bs < 256 ^ len bs.
Proof.
  unfold len. induction bs as [|b bs IH]; simpl le_decode.
  - change (0 <= 0 < 1). lia.
  - rewrite length_cons, Nat2Z.inj_succ, Z.pow_succ_r by lia.
    pose proof (Z_of_byte_range b). lia.
Qed.

Lemma pow256 (w : nat) : 256 ^ Z.of_nat w = 2 ^ (8 * Z.of_nat w).
Proof. rewrite Z.pow_mul_r by lia. reflexivity. Qed.

Lemma length_le_encode w z : length (le_encode w z) = w.
Proof. revert z. induction w as [|w IH]; intros z; simpl; [done | by rewrite IH]. Qed.

Lemma len_app {A} (l1 l2 : list A) : len (l1 ++ l2) = len l1 + len l2.
Proof. unfold len. rewrite length_app. lia. Qed.

Lemma len_nonneg {A} (l : list A) : 0 <= len l.
Proof. unfold len. lia. Qed.

Lemma len_slice_le bs p n : 0 <= n -> len (slice bs p n) <= n.
Proof.
  intros Hn. unfold slice. case_match; [simpl; unfold len; simpl; lia|].
  unfold len. rewrite length_take. lia.
Qed.

Lemma len_slice_le_source bs p n : len (slice bs p n) <= len bs.
Proof.
  unfold slice. case_match; [unfold len; simpl; lia|].
  unfold len. rewrite length_take, length_drop. lia.
Qed.

(** ** The file object *)

Lemma unpack_unsigned_ok {S} w bs (s : S) :
  length bs = w -> unpack_unsigned w bs s = (Ok (le_decode bs), s).
Proof. intros H. unfold unpack_unsigned. by rewrite decide_True. Qed.

Lemma unpack_unsigned_inv {S} w bs (s s' : S) v :
  unpack_unsigned w bs s = (Ok v, s') ->
  length bs = w /\ v = le_decode bs /\ s' = s.
Proof.
  unfold unpack_unsigned. case_decide; [|discriminate].
  unfold se_ret. intros [= <- <-]. done.
Qed.

Lemma read_unsigned_inv w f v f' :
  read_unsigned w f = (Ok v, f') ->
  0 <= v < 2 ^ (8 * Z.of_nat w) /\ content f' = content f.
Proof.
  unfold read_unsigned. intros H.
  apply bind_ok_inv in H as (bs & f1 & Hr & Hu).
  apply unpack_unsigned_inv in Hu as (Hl & -> & ->).
  unfold read in Hr. injection Hr as <- <-. simpl. split; [|done].
  pose proof (le_decode_range (peek f (Z.of_nat w))) as Hd.
  unfold len in Hd. rewrite Hl, pow256 in Hd. done.
Qed.

Lemma read_unsigned_ok w f :
  length (peek f (Z.of_nat w)) = w ->
  read_unsigned w f
  = (Ok (le_decode (peek f (Z.of_nat w))), snd (read (Z.of_nat w) f)).
Proof.
  intros H. unfold read_unsigned.
  erewrite bind_ok by reflexivity. by apply unpack_unsigned_ok.
Qed.

(** ** [read_string] *)

(** C8: when the 8-byte length field at the cursor declares more than the
    configured maximum of [1024 * 1024] bytes, [read_string] raises the
    "String length too large" [ValueError] after a single request of 8
    bytes: the payload is never requested from the file. *)
Theorem read_string_oversized (f : rfile) (declared : Z) :
  length (peek f 8) = 8%nat ->
  le_decode (peek f 8) = declared ->
  declared > max_string_length ->
  read_string f =
    (Raise (ValueError (StringTooLarge declared (pos f))),
     {| content := content f; pos := pos f + 8; reqs := reqs f ++ [8] |}).
Proof.
  intros Hlen Hdec Hbig. unfold read_string.
  erewrite bind_ok by reflexivity.
  assert (len (peek f 8) = 8) as Hl by (unfold len; rewrite Hlen; reflexivity).
  rewrite Hl. change (8 <? 8) with false. cbv iota.
  erewrite bind_ok by (by apply unpack_unsigned_ok).
  rewrite Hdec.
  replace (declared >? max_string_length) with true
    by (symmetry; apply Z.gtb_lt; lia).
  erewrite bind_ok by reflexivity.
  unfold raise. simpl. by replace (pos f + 8 - 8) with (pos f) by lia.
Qed.

Lemma read_string_oversized_witness :
  read_string oversized_file =
    (Raise (ValueError (StringTooLarge (2 ^ 40) 0)),
     {| content := content oversized_file; pos := 8; reqs := [8] |}).
Proof.
  apply (read_string_oversized oversized_file (2 ^ 40)).
  - reflexivity.
  - reflexivity.
  - reflexivity.
Defined.

(** ** The header: magic and version *)

(** A file whose version field holds 99 is parsed like any other: the
    version is stored, nothing is raised. *)
Lemma unknown_version_accepted :
  exists c f',
    read_container (at_start version99_file) = (Ok (Some c), f')
    /\ version c = 99 /\ version c <> GGUF_VERSION.
Proof. eexists _, _. split; [vm_compute; reflexivity|]. split; [reflexivity | discriminate]. Qed.

(** C7, as the code has it: when the four bytes at the cursor differ from
    the magic, [read_container] stops with the [return False] outcome after
    that single request; when they equal the magic, the version field is
    read and parsing continues with the counts whatever value it holds
    (no version is refused). *)
Theorem magic_checked_version_unchecked (f : rfile) :
  (peek f 4 <> GGUF_MAGIC ->
   read_container f = (Ok None, snd (read 4 f)))
  /\ (peek f 4 = GGUF_MAGIC ->
      forall v : Z,
        length (peek (snd (read 4 f)) 4) = 4%nat ->
        le_decode (peek (snd (read 4 f)) 4) = v ->
        read_container f = read_sections v (snd (read 4 (snd (read 4 f))))).
Proof.
  split.
  - intros Hbad. unfold read_container.
    erewrite bind_ok by reflexivity.
    rewrite bool_decide_false by done. reflexivity.
  - intros Hmagic v Hlen Hv. unfold read_container.
    erewrite bind_ok by reflexivity.
    rewrite bool_decide_true by done. cbv [negb].
    erewrite bind_ok by (apply (read_unsigned_ok 4); exact Hlen).
    rewrite <- Hv. reflexivity.
Qed.

Lemma magic_checked_version_unchecked_witness :
  read_container (at_start bad_magic_file) = (Ok None, snd (read 4 (at_start bad_magic_file)))
  /\ read_container (at_start version99_file)
     = read_sections 99 (snd (read 4 (snd (read 4 (at_start version99_file))))).
Proof.
  split.
  - apply (magic_checked_version_unchecked (at_start bad_magic_file)). discriminate.
  - apply (magic_checked_version_unchecked (at_start version99_file));
      reflexivity.
Defined.

(** ** Type tags outside the recognised ones *)

Lemma read_scalar_unknown value_type :
  ~ (0 <= value_type <= 9) -> read_scalar value_type = None.
Proof.
  intros H. unfold read_scalar.
  repeat (case_match; [lia|]). reflexivity.
Qed.

(** A file with an entry of the unknown type tag 99 and an array of the
    unknown element tag 0 is parsed to the end: the first entry is dropped,
    the array is stored empty. *)
Lemma unknown_tags_not_refused :
  exists c f',
    read_container (at_start unknown_tags_file) = (Ok (Some c), f')
    /\ metadata c = {[ ascii_bytes "arr" := PyList [] ]}
    /\ pos f' = len unknown_tags_file.
Proof. eexists _, _. split; [vm_compute; reflexivity|]. split; reflexivity. Qed.

(** C6, as the code has it: a metadata entry whose type tag is none of
    0..9 raises nothing.  In [split_gguf] the entry is dropped after four
    more bytes are read as a guess; in [read_metadata] it is dropped with
    nothing more read.  An array element whose element tag is none of
    8, 4, 5, 6 raises nothing either: the [else] branch reads [skip] bytes
    and appends nothing. *)
Theorem unknown_tags_skipped (value_type array_type skip : Z)
    (metadata : gmap pystr pyval) (value : list pyscalar)
    (f f1 : rfile) (key : pystr) :
  ~ (0 <= value_type <= 9) ->
  array_type ∉ [8; 4; 5; 6] ->
  read_string f = (Ok key, f1) ->
  length (peek f1 4) = 4%nat ->
  le_decode (peek f1 4) = value_type ->
  general_metadata_entry metadata f
    = (Ok (Next metadata), snd (read 4 (snd (read 4 f1))))
  /\ read_metadata_entry metadata f = (Ok (Next metadata), snd (read 4 f1))
  /\ forall g : rfile,
       read_array_element array_type skip value g
       = (Ok (Next value), snd (read skip g)).
Proof.
  intros Htag Hel Hkey Hlen Hv.
  assert (read_unsigned 4 f1 = (Ok value_type, snd (read 4 f1))) as Hrd.
  { rewrite (read_unsigned_ok 4) by exact Hlen.
    change (Z.of_nat 4) with 4. by rewrite Hv. }
  assert ((value_type =? 9) = false) as H9 by lia.
  split; [|split].
  - unfold general_metadata_entry.
    erewrite bind_ok by exact Hkey. erewrite bind_ok by exact Hrd.
    rewrite read_scalar_unknown, H9 by done. reflexivity.
  - unfold read_metadata_entry.
    erewrite bind_ok by exact Hkey. erewrite bind_ok by exact Hrd.
    rewrite read_scalar_unknown, H9 by done. reflexivity.
  - intros g. unfold read_array_element.
    rewrite !not_elem_of_cons in Hel. destruct Hel as (? & ? & ? & ? & _).
    repeat (case_match; [lia|]). reflexivity.
Qed.

Lemma unknown_tags_skipped_witness :
  general_metadata_entry ∅ unknown_entry
    = (Ok (Next ∅), {| content := content unknown_entry; pos := 17; reqs := [8; 1; 4; 4] |})
  /\ read_metadata_entry ∅ unknown_entry
    = (Ok (Next ∅), {| content := content unknown_entry; pos := 13; reqs := [8; 1; 4] |})
  /\ forall g : rfile,
       read_array_element 0 4 [] g = (Ok (Next []), snd (read 4 g)).
Proof.
  apply (unknown_tags_skipped 99 0 4 ∅ [] unknown_entry
           {| content := content unknown_entry; pos := 9; reqs := [8; 1] |}
           (ascii_bytes "k")).
  - lia.
  - rewrite !not_elem_of_cons. repeat split; [discriminate..|apply not_elem_of_nil].
  - reflexivity.
  - reflexivity.
  - reflexivity.
Defined.

(** ** Writing: one step at a time *)

Lemma appends_refl p s : appends p [] s s.
Proof.
  repeat split; [|done..].
  destruct (files s !! p); simpl; [by rewrite app_nil_r | done].
Qed.

Lemma appends_trans p a b s0 s1 s2 :
  appends p a s0 s1 -> appends p b s1 s2 -> appends p (a ++ b) s0 s2.
Proof.
  intros (Ha & Hq & Hd & Hl & Hh) (Ha' & Hq' & Hd' & Hl' & Hh').
  repeat split.
  - rewrite Ha', Ha. destruct (files s0 !! p); simpl; [by rewrite app_assoc | done].
  - intros q Hne. by rewrite Hq', Hq.
  - congruence.
  - by etrans.
  - congruence.
Qed.

Lemma appends_source p bs s s' input src :
  p <> input -> appends p bs s s' ->
  files s !! input = Some src -> files s' !! input = Some src.
Proof. intros Hne (_ & Hq & _) Hsrc. rewrite Hq; done. Qed.

Lemma write_appends p bs s : appends p bs s (write p bs s).2.
Proof.
  unfold write, modify. simpl. repeat split; simpl.
  - by rewrite lookup_alter_eq.
  - intros q Hne. by rewrite lookup_alter_ne.
  - by apply prefix_app_r.
Qed.

Lemma write_step p bs0 bs s0 s :
  appends p bs0 s0 s ->
  exists s', write p bs s = (Ok tt, s') /\ appends p (bs0 ++ bs) s0 s'.
Proof.
  intros H. exists (write p bs s).2. split; [reflexivity|].
  eapply appends_trans; [exact H | apply write_appends].
Qed.

Lemma pack_unsigned_ok {S} w v (s : S) :
  0 <= v < 2 ^ (8 * Z.of_nat w) -> pack_unsigned w v s = (Ok (le_encode w v), s).
Proof.
  intros H. unfold pack_unsigned.
  replace (0 <=? v) with true by lia.
  replace (v <? 2 ^ (8 * Z.of_nat w)) with true by lia.
  reflexivity.
Qed.

Lemma write_unsigned_step p w v bs0 s0 s :
  0 <= v < 2 ^ (8 * Z.of_nat w) ->
  appends p bs0 s0 s ->
  exists s', write_unsigned p w v s = (Ok tt, s')
             /\ appends p (bs0 ++ le_encode w v) s0 s'.
Proof.
  intros Hv H. unfold write_unsigned.
  erewrite bind_ok by (by apply pack_unsigned_ok). by apply write_step.
Qed.

Lemma on_f_frame {A} input (m : SE rfile A) p s :
  appends p [] s (on_f input m s).2.
Proof.
  unfold on_f. destruct (m _) as [r f']. simpl.
  repeat split; simpl; [|done..|by apply prefix_app_r].
  destruct (files s !! p); simpl; [by rewrite app_nil_r | done].
Qed.

Lemma offset_limit_bound s : offset_limit s < 2 ^ 63.
Proof. unfold offset_limit. lia. Qed.

Lemma alloc_limit_bound s : alloc_limit s <= 2 ^ 63 - 34.
Proof. unfold alloc_limit. lia. Qed.

Lemma f_seek_granted input o s :
  0 <= o <= offset_limit s -> f_seek input o s = on_f input (seek o) s.
Proof.
  intros Ho. pose proof (offset_limit_bound s). unfold f_seek.
  replace (2 ^ 63 <=? o) with false by lia.
  replace (o <? 0) with false by lia.
  replace (offset_limit s <? o) with false by lia. reflexivity.
Qed.

Lemma f_read_granted input n s :
  0 <= n <= alloc_limit s -> f_read input n s = on_f input (read n) s.
Proof.
  intros Hn. pose proof (alloc_limit_bound s). unfold f_read.
  replace (n <? -1) with false by lia.
  replace (n =? -1) with false by lia.
  replace (2 ^ 63 - 34 <? n) with false by lia.
  replace (alloc_limit s <? n) with false by lia. reflexivity.
Qed.

Lemma appends_limits p bs s s' :
  appends p bs s s' ->
  offset_limit s' = offset_limit s /\ alloc_limit s' = alloc_limit s.
Proof.
  intros (_ & _ & _ & _ & Hh). unfold offset_limit, alloc_limit.
  by rewrite Hh.
Qed.

Lemma seek_read_step input p src o n bs0 s0 s :
  p <> input ->
  files s0 !! input = Some src ->
  appends p bs0 s0 s ->
  0 <= o <= offset_limit s0 ->
  0 <= n <= alloc_limit s0 ->
  exists s1 s2,
    f_seek input o s = (Ok tt, s1)
    /\ f_read input n s1 = (Ok (slice src o n), s2)
    /\ appends p bs0 s0 s2.
Proof.
  intros Hne Hsrc Happ Ho Hn.
  pose proof (appends_source _ _ _ _ _ _ Hne Happ Hsrc) as Hs.
  destruct (appends_limits _ _ _ _ Happ) as [Hol Hal].
  assert (appends p bs0 s0 (on_f input (seek o) s).2) as Happ1.
  { rewrite <- (app_nil_r bs0). eapply appends_trans; [exact Happ | apply on_f_frame]. }
  destruct (appends_limits _ _ _ _ Happ1) as [_ Hal1].
  exists (on_f input (seek o) s).2, (on_f input (read n) (on_f input (seek o) s).2).2.
  split; [|split].
  - rewrite f_seek_granted by lia. reflexivity.
  - rewrite f_read_granted by lia.
    unfold on_f, seek, read, peek. simpl. by rewrite Hs.
  - rewrite <- (app_nil_r bs0). eapply appends_trans; [exact Happ1 | apply on_f_frame].
Qed.

(** The loop over [tensor['dims']] (lines 310-311). *)
Lemma dims_loop_step p (ds : list Z) : forall bs0 s0 s,
  Forall (fun d => 0 <= d < 2 ^ 64) ds ->
  appends p bs0 s0 s ->
  exists s',
    for_each ds (fun dim _ => write_unsigned p 8 dim ;;; se_ret (Next tt)) tt s
    = (Ok tt, s')
    /\ appends p (bs0 ++ concat (le_encode 8 <$> ds)) s0 s'.
Proof.
  induction ds as [|d ds IH]; intros bs0 s0 s Hds Happ.
  - exists s. split; [reflexivity|]. simpl. by rewrite app_nil_r.
  - apply Forall_cons in Hds as [Hd Hds].
    destruct (write_unsigned_step p 8 d bs0 s0 s) as (s1 & E1 & H1); [done..|].
    destruct (IH _ _ _ Hds H1) as (s2 & E2 & H2).
    exists s2. split.
    + simpl for_each.
      erewrite bind_ok by (erewrite bind_ok by exact E1; reflexivity).
      exact E2.
    + rewrite fmap_cons, concat_cons, app_assoc. exact H2.
Qed.

Lemma index_ok {S A} (l : list A) i x (s : S) :
  l !! Z.to_nat i = Some x -> index l i s = (Ok x, s).
Proof. intros H. unfold index. by rewrite H. Qed.

(** One pass of the tensor loop (lines 300-321). *)
Lemma write_tensor_step input shard c src t idx off bs0 s0 s :
  shard <> input ->
  files s0 !! input = Some src ->
  appends shard bs0 s0 s ->
  0 <= idx < num_tensors c ->
  tensors c !! Z.to_nat idx = Some t ->
  packable t ->
  grantable s0 t ->
  0 <= off < 2 ^ 64 ->
  exists s',
    write_tensor input shard c (idx, off) s
    = (Ok (Next (idx + 1, off + len (slice src (offset t) (size t)))), s')
    /\ appends shard
         (bs0 ++ written_bytes {| w_tensor := t; w_offset := off;
                                  w_data := slice src (offset t) (size t) |})
         s0 s'.
Proof.
  intros Hne Hsrc H0 Hidx Ht (Hname & Hnd & Hds & Hty) [Hgo Hgs] Hoff.
  unfold write_tensor. rewrite Z.geb_leb.
  replace (num_tensors c <=? idx) with false by lia.
  erewrite bind_ok by (by apply index_ok).
  pose proof (len_nonneg (name t)) as Hn0.
  pose proof (len_nonneg (dims t)) as Hnd0.
  destruct (write_unsigned_step shard 8 (len (encode_utf8 (name t))) _ _ _
              ltac:(unfold encode_utf8; simpl; lia) H0) as (s1 & E1 & H1).
  erewrite bind_ok by exact E1.
  destruct (write_step shard _ (encode_utf8 (name t)) _ _ H1) as (s2 & E2 & H2).
  erewrite bind_ok by exact E2.
  destruct (write_unsigned_step shard 4 (len (dims t)) _ _ _
              ltac:(simpl; lia) H2) as (s3 & E3 & H3).
  erewrite bind_ok by exact E3.
  destruct (dims_loop_step shard (dims t) _ _ _ Hds H3) as (s4 & E4 & H4).
  erewrite bind_ok by exact E4.
  destruct (write_unsigned_step shard 4 (type t) _ _ _
              ltac:(simpl; lia) H4) as (s5 & E5 & H5).
  erewrite bind_ok by exact E5.
  destruct (write_unsigned_step shard 8 off _ _ _
              ltac:(simpl; lia) H5) as (s6 & E6 & H6).
  erewrite bind_ok by exact E6.
  destruct (seek_read_step input shard src (offset t) (size t) _ _ _ Hne Hsrc H6
              Hgo Hgs)
    as (s7 & s8 & E7 & E8 & H8).
  erewrite bind_ok by exact E7.
  erewrite bind_ok by exact E8.
  destruct (write_step shard _ (slice src (offset t) (size t)) _ _ H8)
    as (s9 & E9 & H9).
  erewrite bind_ok by exact E9.
  exists s9. split; [reflexivity|].
  unfold written_bytes, written_descriptor, descriptor_bytes. simpl w_tensor.
  simpl w_offset. simpl w_data.
  rewrite <- !app_assoc in H9. rewrite <- !app_assoc. exact H9.
Qed.

(** The tensor loop of one shard (lines 299-321), over the [group] of
    consecutive tensors that begins at [tensor_idx]. *)
Lemma tensor_loop_ok input shard c src :
  shard <> input ->
  forall (group : list tensor_info) (xs : list Z) idx off bs0 s0 s,
    length xs = length group ->
    (forall (k : nat) t, group !! k = Some t ->
                         tensors c !! (Z.to_nat idx + k)%nat = Some t) ->
    0 <= idx -> idx + len group <= num_tensors c ->
    Forall packable group ->
    Forall (grantable s0) group ->
    files s0 !! input = Some src ->
    appends shard bs0 s0 s ->
    0 <= off -> off + len group * len src < 2 ^ 64 ->
    exists off' s',
      for_each xs (fun _ => write_tensor input shard c) (idx, off) s
      = (Ok (idx + len group, off'), s')
      /\ appends shard (bs0 ++ concat (written_bytes <$> copy_items src group off))
           s0 s'.
Proof.
  intros Hne group.
  induction group as [|t group IH];
    intros xs idx off bs0 s0 s Hlen Hat Hidx Hend Hpk Hgr Hsrc H0 Hoff Hbound.
  - destruct xs; [|discriminate]. exists off, s. split.
    + simpl. unfold se_ret. do 3 f_equal. unfold len. simpl. lia.
    + simpl. by rewrite app_nil_r.
  - destruct xs as [|x xs]; [discriminate|]. injection Hlen as Hlen.
    apply Forall_cons in Hpk as [Hpt Hpk].
    apply Forall_cons in Hgr as [Hgt Hgr].
    assert (len (t :: group) = len group + 1) as Hl
      by (unfold len; rewrite length_cons; lia).
    rewrite Hl in *.
    pose proof (len_nonneg group) as Hg. pose proof (len_nonneg src) as Hs.
    pose proof (len_slice_le_source src (offset t) (size t)) as Hd.
    pose proof (len_nonneg (slice src (offset t) (size t))) as Hd0.
    destruct (write_tensor_step input shard c src t idx off bs0 s0 s)
      as (s1 & E1 & H1); try done.
    { lia. }
    { specialize (Hat 0%nat t eq_refl). by rewrite Nat.add_0_r in Hat. }
    { nia. }
    edestruct (IH xs (idx + 1) (off + len (slice src (offset t) (size t))))
      as (off' & s2 & E2 & H2);
      [exact Hlen | | | | exact Hpk | exact Hgr | exact Hsrc | exact H1 | | |].
    { intros k t' Hk. specialize (Hat (S k) t' Hk).
      replace (Z.to_nat (idx + 1) + k)%nat with (Z.to_nat idx + S k)%nat by lia.
      exact Hat. }
    { lia. }
    { lia. }
    { lia. }
    { nia. }
    exists off', s2. split.
    + simpl for_each. erewrite bind_ok by exact E1.
      cbv beta iota. rewrite E2. do 3 f_equal. lia.
    + simpl copy_items. rewrite fmap_cons, concat_cons, app_assoc. exact H2.
Qed.

(** ** Shard paths are pairwise distinct *)

Lemma string_length_app (s1 s2 : string) :
  String.length (s1 +:+ s2) = (String.length s1 + String.length s2)%nat.
Proof. induction s1 as [|a s1 IH]; simpl; [done | by rewrite IH]. Qed.

Lemma string_app_inv_tail (s1 s2 t : string) :
  s1 +:+ t = s2 +:+ t -> s1 = s2.
Proof.
  revert s2. induction s1 as [|a s1 IH]; intros [|b s2] H.
  - done.
  - apply (f_equal String.length) in H.
    rewrite !string_length_app in H. simpl in H. lia.
  - apply (f_equal String.length) in H.
    rewrite !string_length_app in H. simpl in H. lia.
  - injection H as -> H. f_equal. by apply IH.
Qed.

Lemma path_join_inj (a b1 b2 : string) :
  path_join a b1 = path_join a b2 -> b1 = b2.
Proof.
  unfold path_join. repeat case_bool_decide; intros Hj; [done|..].
  - by apply (inj (String.app a)) in Hj.
  - apply (inj (String.app a)) in Hj. by apply (inj (String.app "/")) in Hj.
Qed.

Lemma shard_path_inj out (i j : Z) :
  shard_path out i = shard_path out j -> i = j.
Proof.
  unfold shard_path. intros H. apply path_join_inj in H.
  apply (inj (String.app "shard-")) in H.
  apply string_app_inv_tail in H. by apply (inj pretty) in H.
Qed.

(** ** The shard counts *)

Section Counts.
Variables (total n : Z).
Hypothesis (Htotal : 0 <= total) (Hn : 1 <= n).

Lemma div_mod_facts :
  0 <= total / n /\ 0 <= total mod n < n
  /\ total = n * (total / n) + total mod n.
Proof.
  pose proof (Z.div_mod total n ltac:(lia)).
  pose proof (Z.mod_pos_bound total n ltac:(lia)).
  pose proof (Z.div_pos total n ltac:(lia) ltac:(lia)). lia.
Qed.

Lemma shard_count_nonneg i : 0 <= shard_count total n i.
Proof. unfold shard_count. pose proof div_mod_facts. case_match; lia. Qed.

Lemma shard_start_0 : shard_start total n 0 = 0.
Proof. unfold shard_start. pose proof div_mod_facts. lia. Qed.

Lemma shard_start_succ i :
  0 <= i ->
  shard_start total n (i + 1) = shard_start total n i + shard_count total n i.
Proof.
  intros Hi. unfold shard_start, shard_count. pose proof div_mod_facts.
  destruct (i <? total mod n) eqn:E; lia.
Qed.

Lemma shard_start_end : shard_start total n n = total.
Proof. unfold shard_start. pose proof div_mod_facts. lia. Qed.

Lemma shard_start_bounds i :
  0 <= i <= n -> 0 <= shard_start total n i <= total.
Proof.
  intros Hi. unfold shard_start. pose proof div_mod_facts as (? & ? & E).
  split; [lia|].
  assert (i * (total / n) <= n * (total / n)) by nia. lia.
Qed.

Lemma shard_end_le i :
  0 <= i < n -> shard_start total n i + shard_count total n i <= total.
Proof.
  intros Hi. rewrite <- shard_start_succ by lia.
  apply shard_start_bounds. lia.
Qed.
End Counts.

Lemma len_shard_group (ts : list tensor_info) n i :
  1 <= n -> 0 <= i < n ->
  len (shard_group ts n i) = shard_count (len ts) n i.
Proof.
  intros Hn Hi. unfold shard_group, len at 1.
  pose proof (shard_end_le (len ts) n (len_nonneg ts) Hn i Hi).
  pose proof (shard_start_bounds (len ts) n (len_nonneg ts) Hn i ltac:(lia)).
  pose proof (shard_count_nonneg (len ts) n (len_nonneg ts) Hn i).
  rewrite length_take, length_drop. unfold len in *. lia.
Qed.

Lemma lookup_shard_group (ts : list tensor_info) n i (k : nat) t :
  1 <= n -> 0 <= i < n ->
  shard_group ts n i !! k = Some t ->
  ts !! (Z.to_nat (shard_start (len ts) n i) + k)%nat = Some t.
Proof.
  intros Hn Hi. unfold shard_group. intros H.
  apply lookup_take_Some in H as [H _]. by rewrite lookup_drop in H.
Qed.

(** ** One shard, then all of them *)

Lemma length_range n : length (range n) = Z.to_nat n.
Proof. apply length_seqZ. Qed.

Lemma grantable_limits s s' t :
  limits s' = limits s -> grantable s t -> grantable s' t.
Proof.
  intros Hh. unfold grantable, offset_limit, alloc_limit. by rewrite Hh.
Qed.

Lemma open_wb_ok shard s :
  shard ∉ dirs s ->
  open_wb shard s
  = (Ok tt, {| files := <[shard := []]> (files s); dirs := dirs s;
               cursor := cursor s; log := log s ++ [EvOpenWrite shard];
               limits := limits s |}).
Proof. intros H. unfold open_wb. by rewrite bool_decide_false. Qed.

Lemma write_shard_ok input out c src n i s :
  1 <= n -> 0 <= i < n ->
  well_formed c -> offsets_fit src c ->
  shard_path out i <> input ->
  shard_path out i ∉ dirs s ->
  Forall (grantable s) (tensors c) ->
  files s !! input = Some src ->
  exists s',
    write_shard input out c (num_tensors c / n) (num_tensors c mod n) i
                (shard_start (len (tensors c)) n i) s
    = (Ok (Next (shard_start (len (tensors c)) n (i + 1))), s')
    /\ files s' !! shard_path out i = Some (shard_file src c n i)
    /\ (forall q, q <> shard_path out i -> files s' !! q = files s !! q)
    /\ dirs s' = dirs s
    /\ log s `prefix_of` log s'
    /\ limits s' = limits s.
Proof.
  intros Hn Hi (Hnum & Hlt & Hver & Hpk & Hds) Hfit Hne Hnd Hgr Hsrc.
  rewrite Hnum in Hlt.
  set (total := len (tensors c)) in *.
  assert (0 <= total) as Htot by apply len_nonneg.
  pose proof (shard_count_nonneg total n Htot Hn i) as Hc0.
  pose proof (shard_end_le total n Htot Hn i Hi) as Hend.
  pose proof (shard_start_bounds total n Htot Hn i ltac:(lia)) as Hst.
  pose proof (len_shard_group (tensors c) n i Hn Hi) as Hlg. fold total in Hlg.
  pose proof (len_nonneg src) as Hs0.
  unfold offsets_fit in Hfit. fold total in Hfit.
  unfold write_shard. rewrite Hnum. fold total.
  change (total / n + (if i <? total mod n then 1 else 0))
    with (shard_count total n i).
  set (shard := shard_path out i) in *.
  set (s0 := {| files := <[shard := []]> (files s); dirs := dirs s;
                cursor := cursor s; log := log s ++ [EvOpenWrite shard];
                limits := limits s |}).
  erewrite bind_ok by (by apply open_wb_ok). fold s0.
  assert (files s0 !! input = Some src) as Hsrc0.
  { unfold s0. simpl. rewrite lookup_insert_ne; done. }
  assert (Forall (grantable s0) (tensors c)) as Hgr0.
  { eapply Forall_impl; [exact Hgr|]. intros t. by apply grantable_limits. }
  pose proof (appends_refl shard s0) as H0.
  destruct (write_step shard _ GGUF_MAGIC _ _ H0) as (s1 & E1 & H1).
  erewrite bind_ok by exact E1.
  destruct (write_unsigned_step shard 4 (version c) _ _ _ ltac:(simpl; lia) H1)
    as (s2 & E2 & H2).
  erewrite bind_ok by exact E2.
  destruct (write_unsigned_step shard 8 0 _ _ _ ltac:(simpl; lia) H2)
    as (s3 & E3 & H3).
  erewrite bind_ok by exact E3.
  destruct (write_unsigned_step shard 8 (shard_count total n i) _ _ _
              ltac:(simpl; lia) H3) as (s4 & E4 & H4).
  erewrite bind_ok by exact E4.
  edestruct (tensor_loop_ok input shard c src Hne
               (shard_group (tensors c) n i)
               (range (shard_count total n i))
               (shard_start total n i) (data_start c))
    as (off' & s5 & E5 & H5);
    [ | | | | | | exact Hsrc0 | exact H4 | | | ].
  { rewrite length_range. unfold len in Hlg. lia. }
  { intros k t Hk. by apply lookup_shard_group. }
  { lia. }
  { lia. }
  { unfold shard_group. by apply Forall_take, Forall_drop. }
  { unfold shard_group. by apply Forall_take, Forall_drop. }
  { lia. }
  { nia. }
  erewrite bind_ok by exact E5.
  exists s5. split.
  { unfold se_ret. simpl. do 3 f_equal.
    rewrite shard_start_succ by lia. lia. }
  destruct H5 as (Hf & Hq & Hd & Hl & Hh).
  assert (files s0 !! shard = Some []) as Hnew.
  { unfold s0. simpl. by rewrite lookup_insert_eq. }
  repeat split.
  - rewrite Hf, Hnew. simpl. unfold shard_file, shard_items, shard_bytes, header_bytes.
    fold total. by rewrite <- !app_assoc.
  - intros q Hqne. rewrite Hq by done.
    unfold s0. simpl. by rewrite lookup_insert_ne.
  - rewrite Hd. reflexivity.
  - etrans; [|exact Hl]. unfold s0. simpl. by apply prefix_app_r.
  - rewrite Hh. reflexivity.
Qed.

Lemma shard_loop_ok input out c src n :
  1 <= n -> well_formed c -> offsets_fit src c ->
  (forall i, 0 <= i < n -> shard_path out i <> input) ->
  forall (k : nat) i s,
    0 <= i -> i + Z.of_nat k = n ->
    files s !! input = Some src ->
    (forall j, 0 <= j < n -> shard_path out j ∉ dirs s) ->
    Forall (grantable s) (tensors c) ->
    exists a s',
      for_each (seqZ i (Z.of_nat k))
        (write_shard input out c (num_tensors c / n) (num_tensors c mod n))
        (shard_start (len (tensors c)) n i) s
      = (Ok a, s')
      /\ (forall j, i <= j < n ->
                    files s' !! shard_path out j = Some (shard_file src c n j))
      /\ (forall q, (forall j, i <= j < n -> q <> shard_path out j) ->
                    files s' !! q = files s !! q)
      /\ dirs s' = dirs s
      /\ log s `prefix_of` log s'
      /\ limits s' = limits s.
Proof.
  intros Hn Hwf Hfit Hne k.
  induction k as [|k IH]; intros i s Hi Hk Hsrc Hnd Hgr.
  - exists (shard_start (len (tensors c)) n i), s.
    split; [reflexivity|]. split; [intros j Hj; lia|]. done.
  - rewrite seqZ_cons by lia.
    replace (Z.pred (Z.of_nat (S k))) with (Z.of_nat k) by lia.
    replace (Z.succ i) with (i + 1) by lia.
    destruct (write_shard_ok input out c src n i s)
      as (s1 & E1 & Hfile & Hq1 & Hd1 & Hl1 & Hh1); try done;
      [lia | apply Hne; lia | apply Hnd; lia |].
    assert (files s1 !! input = Some src) as Hsrc1.
    { rewrite Hq1; [done|]. intros ->. by apply (Hne i ltac:(lia)). }
    destruct (IH (i + 1) s1 ltac:(lia) ltac:(lia) Hsrc1)
      as (a & s2 & E2 & Hfiles & Hq2 & Hd2 & Hl2 & Hh2).
    { intros j Hj. rewrite Hd1. by apply Hnd. }
    { eapply Forall_impl; [exact Hgr|]. intros t. by apply grantable_limits. }
    exists a, s2. split.
    { simpl for_each. erewrite bind_ok by exact E1. cbv beta iota. exact E2. }
    split; [|split; [|split; [|split]]].
    + intros j Hj. destruct (decide (j = i)) as [->|Hji].
      * rewrite Hq2; [exact Hfile|].
        intros j' Hj' Heq. apply shard_path_inj in Heq. lia.
      * apply Hfiles. lia.
    + intros q Hq. rewrite Hq2 by (intros j Hj; apply Hq; lia).
      apply Hq1. apply Hq. lia.
    + congruence.
    + by etrans.
    + congruence.
Qed.

(** ** What the parsing part guarantees *)

Lemma for_each_invariant {S X A} (P : nat -> A -> Prop)
    (body : X -> A -> SE S (flow A)) :
  (forall x a s r s' (k : nat),
      P k a -> body x a s = (Ok r, s') -> exists a', r = Next a' /\ P (Datatypes.S k) a') ->
  forall xs (k : nat) a s a' s',
    P k a -> for_each xs body a s = (Ok a', s') -> P (k + length xs)%nat a'.
Proof.
  intros Hbody xs.
  induction xs as [|x xs IH]; intros k a s a' s' HP Hrun.
  - injection Hrun as <- <-. by rewrite Nat.add_0_r.
  - simpl in Hrun. apply bind_ok_inv in Hrun as (r & s1 & Hb & Hrest).
    destruct (Hbody _ _ _ _ _ _ HP Hb) as (a1 & -> & HP1).
    rewrite length_cons, Nat.add_succ_r. by eapply (IH (Datatypes.S k)).
Qed.

Lemma read_string_inv f s f' :
  read_string f = (Ok s, f') -> len s <= max_string_length.
Proof.
  unfold read_string. intros H.
  apply bind_ok_inv in H as (bs & f1 & _ & H).
  destruct (len bs <? 8); [discriminate|].
  apply bind_ok_inv in H as (n & f2 & Hu & H).
  apply unpack_unsigned_inv in Hu as (_ & -> & ->).
  pose proof (le_decode_range bs) as [Hn0 _].
  destruct (le_decode bs >? max_string_length) eqn:Hgt.
  { apply bind_ok_inv in H as (? & ? & _ & H). discriminate. }
  apply bind_ok_inv in H as (data & f3 & Hr & H).
  unfold read in Hr. injection Hr as <- <-.
  destruct (_ <? _); [discriminate|].
  unfold decode_utf8 in H. destruct (utf8_valid _); [|discriminate].
  injection H as <- <-.
  pose proof (len_slice_le (content f1) (pos f1) (le_decode bs) Hn0) as Hle.
  unfold peek. rewrite Z.gtb_ltb in Hgt. lia.
Qed.

Lemma read_tensor_info_inv f nm ds ty off f' :
  read_tensor_info f = (Ok (nm, ds, ty, off), f') ->
  len nm <= max_string_length /\ len ds < 2 ^ 32
  /\ Forall (fun d => 0 <= d < 2 ^ 64) ds /\ 0 <= ty < 2 ^ 32.
Proof.
  unfold read_tensor_info. intros H.
  apply bind_ok_inv in H as (nm' & f1 & Hs & H).
  apply bind_ok_inv in H as (n_dims & f2 & Hn & H).
  apply bind_ok_inv in H as (ds' & f3 & Hloop & H).
  apply bind_ok_inv in H as (ty' & f4 & Hty & H).
  apply bind_ok_inv in H as (off' & f5 & Hoff & H).
  injection H as -> -> -> -> _.
  apply read_string_inv in Hs. apply read_unsigned_inv in Hn as [Hn _].
  apply read_unsigned_inv in Hty as [Hty _].
  pose proof (for_each_invariant
    (fun k l => length l = k /\ Forall (fun d => 0 <= d < 2 ^ 64) l)
    (fun (_ : Z) dims => let* d := read_unsigned 8 in se_ret (Next (dims ++ [d]))))
    as Hinv.
  assert (length (@nil Z) = O /\ Forall (fun d => 0 <= d < 2 ^ 64) []) as H0
    by (split; [done | constructor]).
  eapply Hinv in Hloop; [|clear Hloop|exact H0].
  - destruct Hloop as [Hlen Hall]. rewrite length_range in Hlen.
    repeat split; try done; try lia. unfold len. simpl in Hn. lia.
  - intros x a s r s' k [Hk Ha] Hb.
    apply bind_ok_inv in Hb as (d & s1 & Hd & Hb). injection Hb as <- <-.
    apply read_unsigned_inv in Hd as [Hd _].
    eexists. split; [reflexivity|]. split.
    + rewrite length_app. simpl. lia.
    + apply Forall_app. split; [done|]. by constructor.
Qed.

Lemma read_container_well_formed f c f' :
  read_container f = (Ok (Some c), f') -> well_formed c.
Proof.
  unfold read_container. intros H.
  apply bind_ok_inv in H as (magic & f1 & _ & H).
  destruct (negb _); [discriminate|].
  apply bind_ok_inv in H as (ver & f2 & Hver & H).
  apply read_unsigned_inv in Hver as [Hver _].
  unfold read_sections in H.
  apply bind_ok_inv in H as (gc & f3 & _ & H).
  apply bind_ok_inv in H as (tc & f4 & _ & H).
  apply bind_ok_inv in H as (md & f5 & _ & H).
  apply bind_ok_inv in H as (u & f6 & _ & H).
  apply bind_ok_inv in H as (nt & f7 & Hnt & H).
  apply bind_ok_inv in H as (ts & f8 & Hloop & H).
  apply bind_ok_inv in H as (u' & f9 & Hend & H).
  apply bind_ok_inv in H as (fs & f10 & Hfs & H).
  apply bind_ok_inv in H as (dst & f11 & Hdst & H).
  injection H as <- _.
  apply read_unsigned_inv in Hnt as [Hnt _].
  unfold seek_end in Hend. injection Hend as _ <-.
  unfold tell in Hfs, Hdst. injection Hfs as <- <-. injection Hdst as <- _.
  pose proof (for_each_invariant
    (fun k l => length l = k /\ Forall packable l) (fun _ : Z => read_tensor))
    as Hinv.
  assert (length (@nil tensor_info) = O /\ Forall packable []) as H0
    by (split; [done | constructor]).
  eapply Hinv in Hloop; [|clear Hloop|exact H0].
  - destruct Hloop as [Hlen Hall]. rewrite length_range in Hlen.
    unfold well_formed. simpl. repeat split; try done; try lia.
    + unfold len. lia.
    + apply len_nonneg.
  - intros x a s r s' k [Hk Ha] Hb. unfold read_tensor in Hb.
    apply bind_ok_inv in Hb as ([[[nm ds] ty] off] & s1 & Hi & Hb).
    injection Hb as <- <-.
    apply read_tensor_info_inv in Hi as (Hnm & Hnd & Hds & Hty).
    eexists. split; [reflexivity|]. split.
    + rewrite length_app. simpl. lia.
    + apply Forall_app. split; [done|]. constructor; [|constructor].
      unfold packable. simpl. repeat split; try done; try lia.
      unfold max_string_length in Hnm. lia.
Qed.

(** ** The whole run *)

Lemma on_f_same {A} input (m : SE rfile A) s :
  files (on_f input m s).2 = files s /\ dirs (on_f input m s).2 = dirs s.
Proof. unfold on_f. by destruct (m _). Qed.

Lemma on_f_limits {A} input (m : SE rfile A) s :
  limits (on_f input m s).2 = limits s.
Proof. unfold on_f. by destruct (m _). Qed.

(** [os.makedirs] where it succeeds. *)
Lemma makedirs_ok s out :
  can_makedirs s out ->
  makedirs out s
  = (Ok tt, {| files := files s; dirs := made_dirs out ∪ dirs s;
               cursor := cursor s; log := log s ++ [EvMakedirs out];
               limits := limits s |}).
Proof.
  intros (Hne & Hf & Ha). unfold makedirs.
  rewrite bool_decide_false by (by intros ->).
  rewrite bool_decide_false by (rewrite Hf; by intros [? ?]).
  rewrite bool_decide_false; [reflexivity|].
  intros HE. apply Exists_exists in HE as (a & Hin & [x Hx]).
  rewrite Forall_forall in Ha. rewrite (Ha a Hin) in Hx. done.
Qed.

(** No shard path is the output directory or a directory on the way to
    it: it is longer than all of them. *)
Lemma prefixes_length (rest : string) : forall pre a,
  a ∈ prefixes pre rest ->
  (String.length a < String.length pre + String.length rest)%nat.
Proof.
  induction rest as [|ch r IH]; intros pre a Ha; simpl in Ha.
  - by apply elem_of_nil in Ha.
  - apply elem_of_app in Ha as [Ha | Ha].
    + destruct (_ && _); [|by apply elem_of_nil in Ha].
      apply elem_of_cons in Ha as [-> | Ha]; [|by apply elem_of_nil in Ha].
      simpl. lia.
    + apply IH in Ha. rewrite string_length_app in Ha. simpl in *. lia.
Qed.

Lemma made_dirs_length out a :
  a ∈ made_dirs out -> (String.length a <= String.length out)%nat.
Proof.
  unfold made_dirs. intros Ha. apply elem_of_union in Ha as [Ha | Ha].
  - apply elem_of_list_to_set in Ha. apply prefixes_length in Ha.
    simpl in Ha. lia.
  - apply elem_of_singleton in Ha as ->. lia.
Qed.

Lemma shard_path_length out i :
  out <> ""%string -> (String.length out < String.length (shard_path out i))%nat.
Proof.
  intros Hne. unfold shard_path, path_join.
  rewrite bool_decide_false by done.
  case_bool_decide; rewrite !string_length_app; simpl; lia.
Qed.

Lemma shard_path_not_made out i :
  out <> ""%string -> shard_path out i ∉ made_dirs out.
Proof.
  intros Hne Hin. apply made_dirs_length in Hin.
  pose proof (shard_path_length out i Hne). lia.
Qed.

Lemma split_gguf_ok input out n s src c :
  valid_run input out n s src c ->
  exists s',
    split_gguf input n out s = (Ok true, s')
    /\ (forall i, 0 <= i < n ->
                  files s' !! shard_path out i = Some (shard_file src c n i))
    /\ (forall q, (forall i, 0 <= i < n -> q <> shard_path out i) ->
                  files s' !! q = files s !! q)
    /\ dirs s' = made_dirs out ∪ dirs s.
Proof.
  intros (Hsrc & Hparse & Hn & Hfit & Hne & _ & Hmk & Hnd & Hgr).
  destruct (read_container (at_start src)) as [r f'] eqn:Hrc.
  simpl in Hparse. subst r.
  pose proof (read_container_well_formed _ _ _ Hrc) as Hwf.
  unfold split_gguf.
  erewrite bind_ok by (by apply makedirs_ok).
  set (s1 := {| files := files s; dirs := made_dirs out ∪ dirs s;
                cursor := cursor s; log := log s ++ [EvMakedirs out];
                limits := limits s |}).
  erewrite (bind_ok (open_rb input) _ s1 tt (open_rb input s1).2).
  2:{ unfold open_rb, s1. simpl. by rewrite Hsrc. }
  set (s2 := (open_rb input s1).2).
  assert (files s2 = files s /\ dirs s2 = made_dirs out ∪ dirs s
          /\ cursor s2 = 0 /\ limits s2 = limits s)
    as (Hf2 & Hd2 & Hc2 & Hh2).
  { unfold s2, open_rb, s1. simpl. rewrite Hsrc. done. }
  set (s3 := (on_f input read_container s2).2).
  erewrite (bind_ok (on_f input read_container) _ s2 (Some c) s3).
  2:{ unfold s3, on_f. rewrite Hf2, Hsrc, Hc2. simpl.
      change {| content := src; pos := 0; reqs := [] |} with (at_start src).
      by rewrite Hrc. }
  assert (files s3 = files s /\ dirs s3 = made_dirs out ∪ dirs s
          /\ limits s3 = limits s) as (Hf3 & Hd3 & Hh3).
  { destruct (on_f_same input read_container s2) as [E1 E2].
    pose proof (on_f_limits input read_container s2) as E3.
    fold s3 in E1, E2, E3. by rewrite E1, E2, E3. }
  replace (n =? 0) with false by lia.
  destruct (shard_loop_ok input out c src n Hn Hwf Hfit Hne (Z.to_nat n) 0 s3)
    as (a & s4 & E & Hfiles & Hq & Hd & _); [lia | lia | by rewrite Hf3 | | |].
  { intros j Hj. rewrite Hd3. apply not_elem_of_union. split.
    - apply shard_path_not_made. destruct Hmk as [Hnp _]. by intros ->.
    - by apply Hnd. }
  { eapply Forall_impl; [exact Hgr|]. intros t. by apply grantable_limits. }
  rewrite Z2Nat.id in E by lia.
  destruct Hwf as (Hnum & _).
  rewrite shard_start_0 in E by (first [apply len_nonneg | lia]).
  unfold range. erewrite bind_ok by exact E.
  exists s4. split; [reflexivity|]. split; [|split].
  - intros i Hi. by apply Hfiles.
  - intros q Hqne. by rewrite Hq, Hf3.
  - by rewrite Hd, Hd3.
Qed.

(** The sample states: one file, no directory, and ["out"] can be made. *)
Lemma sample_fs src :
  well_formed_fs (initial "m.gguf" src)
  /\ can_makedirs (initial "m.gguf" src) "out".
Proof.
  split; [split|].
  - intros p [[x Hx] | Hp].
    + simpl in Hx. apply lookup_singleton_Some in Hx as [<- _].
      split; [reflexivity | constructor].
    + simpl in Hp. by apply not_elem_of_empty in Hp.
  - intros p _. simpl. apply not_elem_of_empty.
  - split; [reflexivity|]. split; [reflexivity | constructor].
Defined.

Lemma sample_setup n :
  well_formed_fs (initial "m.gguf" src3)
  /\ can_makedirs (initial "m.gguf" src3) "out"
  /\ (forall i, 0 <= i < n -> shard_path "out" i ∉ dirs (initial "m.gguf" src3))
  /\ Forall (grantable (initial "m.gguf" src3)) (tensors c3).
Proof.
  split; [apply sample_fs|]. split; [apply sample_fs|]. split.
  - intros i _. simpl. apply not_elem_of_empty.
  - repeat constructor; vm_compute; discriminate.
Defined.

Lemma sample_valid : valid_run "m.gguf" "out" 2 (initial "m.gguf" src3) src3 c3.
Proof.
  unfold valid_run. split; [|split; [|split; [|split; [|split]]]].
  - reflexivity.
  - vm_compute. reflexivity.
  - lia.
  - vm_compute. reflexivity.
  - intros i Hi. assert (i = 0 \/ i = 1) as [-> | ->] by lia; discriminate.
  - apply sample_setup.
Defined.

(** ** The items of a shard *)

Lemma tensors_copy_items src group : forall off,
  w_tensor <$> copy_items src group off = group.
Proof. induction group as [|t g IH]; intros off; simpl; [done | by rewrite IH]. Qed.

Lemma len_copy_items src group off : len (copy_items src group off) = len group.
Proof.
  unfold len. rewrite <- (tensors_copy_items src group off) at 2.
  by rewrite length_fmap.
Qed.

Lemma copy_items_data src group : forall off x,
  x ∈ copy_items src group off ->
  w_data x = slice src (offset (w_tensor x)) (size (w_tensor x)).
Proof.
  induction group as [|t g IH]; intros off x Hx; simpl in Hx.
  - by apply elem_of_nil in Hx.
  - apply elem_of_cons in Hx as [-> | Hx]; [done | by eapply IH].
Qed.

Lemma copy_items_head src group off x :
  copy_items src group off !! 0%nat = Some x -> w_offset x = off.
Proof. destruct group; simpl; [done | by intros [= <-]]. Qed.

Lemma copy_items_next src group : forall off (k : nat) x y,
  copy_items src group off !! k = Some x ->
  copy_items src group off !! Datatypes.S k = Some y ->
  w_offset y = w_offset x + len (w_data x).
Proof.
  induction group as [|t g IH]; intros off k x y Hx Hy; [done|].
  destruct k as [|k]; simpl in Hx, Hy.
  - injection Hx as <-. simpl. by apply (copy_items_head src g).
  - by eapply IH.
Qed.

Lemma concat_shard_groups (ts : list tensor_info) n :
  1 <= n -> concat (shard_group ts n <$> range n) = ts.
Proof.
  intros Hn. pose proof (len_nonneg ts) as Ht.
  assert (forall (k : nat) i, 0 <= i -> i + Z.of_nat k <= n ->
            concat (shard_group ts n <$> seqZ i (Z.of_nat k))
            = take (Z.to_nat (shard_start (len ts) n (i + Z.of_nat k))
                    - Z.to_nat (shard_start (len ts) n i))
                   (drop (Z.to_nat (shard_start (len ts) n i)) ts)) as Hgen.
  { induction k as [|k IH]; intros i Hi Hk.
    - simpl. replace (i + Z.of_nat 0) with i by lia.
      by rewrite Nat.sub_diag, take_0.
    - rewrite seqZ_cons by lia.
      replace (Z.pred (Z.of_nat (S k))) with (Z.of_nat k) by lia.
      replace (Z.succ i) with (i + 1) by lia.
      rewrite fmap_cons, concat_cons, IH by lia.
      replace (i + 1 + Z.of_nat k) with (i + Z.of_nat (S k)) by lia.
      pose proof (shard_start_succ (len ts) n Ht Hn i Hi) as Hs.
      pose proof (shard_count_nonneg (len ts) n Ht Hn i) as Hc.
      pose proof (shard_start_bounds (len ts) n Ht Hn i ltac:(lia)) as Hb.
      pose proof (shard_start_bounds (len ts) n Ht Hn (i + 1) ltac:(lia)) as Hb1.
      pose proof (shard_start_bounds (len ts) n Ht Hn (i + Z.of_nat (S k))
                    ltac:(lia)) as Hb2.
      assert (shard_start (len ts) n (i + 1)
              <= shard_start (len ts) n (i + Z.of_nat (S k))) as Hmono.
      { unfold shard_start.
        pose proof (div_mod_facts (len ts) n Ht Hn) as (? & ? & _). nia. }
      unfold shard_group.
      replace (Z.to_nat (shard_start (len ts) n (i + 1)))
        with (Z.to_nat (shard_start (len ts) n i)
              + Z.to_nat (shard_count (len ts) n i))%nat by lia.
      rewrite <- drop_drop, take_take_drop. f_equal. lia. }
  unfold range. rewrite <- (Z2Nat.id n) at 2 by lia.
  rewrite Hgen by lia. rewrite Z.add_0_l, Z2Nat.id by lia.
  rewrite shard_start_0, shard_start_end by lia.
  simpl. rewrite drop_0. apply take_ge. unfold len. lia.
Qed.

Lemma split_gguf_items input out n s src c :
  valid_run input out n s src c ->
  exists s',
    split_gguf input n out s = (Ok true, s')
    /\ forall i, 0 <= i < n ->
         files s' !! shard_path out i
         = Some (shard_bytes (version c) (len (shard_items src c n i))
                             (shard_items src c n i)).
Proof.
  intros Hv. destruct (split_gguf_ok _ _ _ _ _ _ Hv) as (s' & E & Hfiles & _).
  destruct Hv as (_ & _ & Hn & _).
  exists s'. split; [done|]. intros i Hi. rewrite (Hfiles i Hi).
  unfold shard_file, shard_items. by rewrite len_copy_items, len_shard_group.
Qed.

(** ** The shards partition the catalog *)




Lemma sample_valid_4 : valid_run "m.gguf" "out" 4 (initial "m.gguf" src3) src3 c3.
Proof.
  unfold valid_run. split; [|split; [|split; [|split; [|split]]]].
  - reflexivity.
  - vm_compute. reflexivity.
  - lia.
  - vm_compute. reflexivity.
  - intros i Hi.
    assert (i = 0 \/ i = 1 \/ i = 2 \/ i = 3) as [-> | [-> | [-> | ->]]] by lia;
      discriminate.
  - apply sample_setup.
Defined.


(** ** Offsets written into the descriptors *)




(** ** The layout of a shard file *)




(** ** Copying a tensor the source does not fully hold *)

Lemma len_slice bs p n :
  0 <= p -> 0 <= n -> len (slice bs p n) = Z.max 0 (Z.min n (len bs - p)).
Proof.
  intros Hp Hn. unfold slice. destruct (len bs <=? p) eqn:E.
  - apply Z.leb_le in E. unfold len in *.
    change (Z.of_nat (length (@nil byte))) with 0. lia.
  - apply Z.leb_gt in E. unfold len in *.
    rewrite length_take, length_drop. lia.
Qed.

(** The tensor of [src_short] claims ten bytes where the file holds two:
    the run returns [True] and the shard holds the two bytes. *)
Lemma short_source_no_error_example :
  (split_gguf "m.gguf" 1 "out" (initial "m.gguf" src_short)).1 = Ok true
  /\ files (split_gguf "m.gguf" 1 "out" (initial "m.gguf" src_short)).2
       !! "out/shard-0.gguf"%string
     = Some (shard_bytes 3 1
               [ {| w_tensor := tensor_short; w_offset := 67;
                    w_data := ascii_bytes "AA" |} ])
  /\ size tensor_short = 10
  /\ len src_short - offset tensor_short = 2.
Proof. repeat split; vm_compute; reflexivity. Qed.

(** C5, as the code has it: in a file system, for a shard that is not the
    input, when the source holds fewer than [size] bytes at the tensor's
    offset, and the offset and the size are ones the host grants to
    [f.seek] and [f.read] (at most [offset_limit] and [alloc_limit], both
    below [2^63]), the copy raises nothing: it writes
    the descriptor, appends the bytes that are there (possibly none), and
    advances [shard_data_offset] by their number. *)
Theorem short_read_copied_without_error input shard c src t idx off s :
  well_formed_fs s ->
  normal_path shard = true ->
  shard <> input ->
  files s !! input = Some src ->
  0 <= idx < num_tensors c ->
  tensors c !! Z.to_nat idx = Some t ->
  packable t ->
  0 <= off < 2 ^ 64 ->
  0 <= offset t <= offset_limit s ->
  size t <= alloc_limit s ->
  Z.max 0 (len src - offset t) < size t ->
  len (slice src (offset t) (size t)) = Z.max 0 (len src - offset t)
  /\ len (slice src (offset t) (size t)) < size t
  /\ exists s',
       write_tensor input shard c (idx, off) s
       = (Ok (Next (idx + 1, off + len (slice src (offset t) (size t)))), s')
       /\ appends shard
            (written_bytes {| w_tensor := t; w_offset := off;
                              w_data := slice src (offset t) (size t) |})
            s s'.
Proof.
  intros _ _ Hne Hsrc Hidx Ht Hpk Hoff Ho Hsize Hshort.
  pose proof (len_slice src (offset t) (size t) ltac:(lia) ltac:(lia)) as Hl.
  split; [lia|]. split; [lia|].
  destruct (write_tensor_step input shard c src t idx off [] s s)
    as (s' & E & H); try done; [apply appends_refl | split; lia |].
  by exists s'.
Qed.

Lemma short_read_copied_without_error_witness :
  len (slice src_short 65 10) = Z.max 0 (len src_short - 65)
  /\ len (slice src_short 65 10) < 10
  /\ exists s',
       write_tensor "m.gguf" "out/shard-0.gguf" c_short (0, 67)
                    (initial "m.gguf" src_short)
       = (Ok (Next (0 + 1, 67 + len (slice src_short 65 10))), s')
       /\ appends "out/shard-0.gguf"
            (written_bytes {| w_tensor := tensor_short; w_offset := 67;
                              w_data := slice src_short 65 10 |})
            (initial "m.gguf" src_short) s'.
Proof.
  apply (short_read_copied_without_error "m.gguf" "out/shard-0.gguf" c_short
           src_short tensor_short 0 67 (initial "m.gguf" src_short)).
  - apply sample_fs.
  - reflexivity.
  - discriminate.
  - reflexivity.
  - vm_compute. split; [discriminate | reflexivity].
  - reflexivity.
  - unfold packable. simpl.
    split; [reflexivity|]. split; [reflexivity|]. split.
    + constructor; [lia | constructor].
    + lia.
  - lia.
  - vm_compute. split; discriminate.
  - vm_compute. discriminate.
  - vm_compute. reflexivity.
Defined.

(** ** The output directory comes first *)

Lemma keeps_refl s : keeps s s.
Proof. by split. Qed.

Lemma keeps_trans s1 s2 s3 : keeps s1 s2 -> keeps s2 s3 -> keeps s1 s3.
Proof. intros [Hd Hl] [Hd' Hl']. split; [congruence | by etrans]. Qed.

Lemma steady_ret {A} (a : A) : steady (se_ret a).
Proof. intros s. apply keeps_refl. Qed.

Lemma steady_raise {A} e : steady (@raise state A e).
Proof. intros s. apply keeps_refl. Qed.

Lemma steady_bind {A B} (m : SE state A) (k : A -> SE state B) :
  steady m -> (forall a, steady (k a)) -> steady (se_bind m k).
Proof.
  intros Hm Hk s. unfold se_bind. specialize (Hm s).
  destruct (m s) as [[a|e] s1]; simpl in *; [|done].
  eapply keeps_trans; [exact Hm | apply Hk].
Qed.

Lemma steady_for_each {X A} (body : X -> A -> SE state (flow A)) xs :
  (forall x a, steady (body x a)) -> forall a, steady (for_each xs body a).
Proof.
  intros Hb. induction xs as [|x xs IH]; intros a; simpl.
  - apply steady_ret.
  - apply steady_bind; [apply Hb|]. intros [a'|a']; [apply IH | apply steady_ret].
Qed.

Lemma steady_on_f {A} input (m : SE rfile A) : steady (on_f input m).
Proof.
  intros s. unfold on_f. destruct (m _) as [r f']. simpl.
  split; simpl; [done | by apply prefix_app_r].
Qed.

Lemma steady_open_rb input : steady (open_rb input).
Proof.
  intros s. unfold open_rb.
  destruct (files s !! input); [|repeat case_bool_decide];
    simpl; (split; simpl; [done | by apply prefix_app_r]).
Qed.

Lemma steady_open_wb p : steady (open_wb p).
Proof.
  intros s. unfold open_wb. case_bool_decide;
    (split; simpl; [done | by apply prefix_app_r]).
Qed.

Lemma steady_f_seek input o : steady (f_seek input o).
Proof.
  intros s. unfold f_seek. repeat case_match;
    first [apply keeps_refl | apply steady_on_f].
Qed.

Lemma steady_f_read input n : steady (f_read input n).
Proof.
  intros s. unfold f_read. repeat case_match;
    first [apply keeps_refl | apply steady_on_f].
Qed.

Lemma steady_write p bs : steady (write p bs).
Proof. intros s. split; simpl; [done | by apply prefix_app_r]. Qed.

Lemma steady_write_unsigned p w v : steady (write_unsigned p w v).
Proof.
  unfold write_unsigned. apply steady_bind.
  - intros s. unfold pack_unsigned. destruct (_ && _); apply keeps_refl.
  - intros bs. apply steady_write.
Qed.

Lemma steady_index {A} (l : list A) i : steady (index l i).
Proof. intros s. unfold index. destruct (l !! _); apply keeps_refl. Qed.

Create HintDb steady.
#[local] Hint Resolve steady_ret steady_raise steady_on_f steady_open_rb
  steady_open_wb steady_write steady_write_unsigned steady_index
  steady_f_seek steady_f_read : steady.

Lemma steady_write_tensor input shard c acc :
  steady (write_tensor input shard c acc).
Proof.
  unfold write_tensor. destruct acc as [tensor_idx shard_data_offset].
  destruct (_ >=? _); [auto with steady|].
  repeat (apply steady_bind; [auto with steady | intros ?]);
    try auto with steady.
  apply steady_for_each. intros dim u.
  apply steady_bind; [auto with steady | intros ?; auto with steady].
Qed.

Lemma steady_write_shard input out c base extra i idx :
  steady (write_shard input out c base extra i idx).
Proof.
  unfold write_shard.
  repeat (apply steady_bind; [auto with steady | intros ?]);
    try auto with steady.
  apply steady_for_each. intros x' acc'. apply steady_write_tensor.
Qed.

Lemma makedirs_inv_ok out s u s1 :
  makedirs out s = (Ok u, s1) ->
  s1 = {| files := files s; dirs := made_dirs out ∪ dirs s;
          cursor := cursor s; log := log s ++ [EvMakedirs out];
          limits := limits s |}.
Proof.
  intros Hmk. unfold makedirs in Hmk.
  repeat case_bool_decide; try discriminate. by injection Hmk as _ <-.
Qed.

Lemma makedirs_inv_raise out s e s1 :
  makedirs out s = (Raise e, s1) -> log s1 = log s ++ [EvMakedirs out].
Proof.
  intros Hmk. unfold makedirs in Hmk.
  repeat case_bool_decide; try discriminate; by injection Hmk as _ <-.
Qed.



(** ** Reading a shard back *)

(** C1, evaluated: the run on the one-tensor source [src1] with one shard
    plans the tensor ["a"] for shard 0 and writes it; parsing that shard
    file with [read_container] succeeds but reports no tensor, because the
    shard's tensor count is read as the tensor-metadata count.  The shard
    written for the empty source [src0] does not parse at all: the reader
    finds no bytes where it expects the tensor count. *)
Theorem shard_read_back_example :
  shard_group (tensors (catalog_of src1)) 1 0 = [tensor_1]
  /\ files (split_gguf "m.gguf" 1 "out" (initial "m.gguf" src1)).2
       !! "out/shard-0.gguf"%string
     = Some (shard_file src1 (catalog_of src1) 1 0)
  /\ (exists c',
        reread (split_gguf "m.gguf" 1 "out" (initial "m.gguf" src1)).2
               "out/shard-0.gguf" = Ok (Some c')
        /\ num_tensors c' = 0 /\ tensors c' = [])
  /\ files (split_gguf "m.gguf" 1 "out" (initial "m.gguf" src0)).2
       !! "out/shard-0.gguf"%string
     = Some (header_bytes 3 0)
  /\ reread (split_gguf "m.gguf" 1 "out" (initial "m.gguf" src0)).2
            "out/shard-0.gguf" = Raise StructError.
Proof.
  split; [vm_compute; reflexivity|].
  split; [vm_compute; reflexivity|].
  split.
  - eexists. split; [vm_compute; reflexivity|]. split; reflexivity.
  - split; vm_compute; reflexivity.
Qed.

(** * Further properties *)

(** ** [struct.pack] and [struct.unpack] are inverse *)

Lemma Z_of_byte_of_Z z : Z_of_byte (byte_of_Z z) = z mod 256.
Proof.
  unfold Z_of_byte, byte_of_Z.
  pose proof (Z.mod_pos_bound z 256 ltac:(lia)) as Hm.
  destruct (Byte.of_N (Z.to_N (z mod 256))) as [b|] eqn:E.
  - apply Byte.to_of_N in E. rewrite E. lia.
  - apply Byte.of_N_None_iff in E. lia.
Qed.

Lemma le_decode_encode (w : nat) : forall v,
  0 <= v < 256 ^ Z.of_nat w -> le_decode (le_encode w v) = v.
Proof.
  induction w as [|w IH]; intros v Hv.
  - simpl in *. lia.
  - rewrite Nat2Z.inj_succ, Z.pow_succ_r in Hv by lia.
    cbn [le_encode le_decode]. rewrite Z_of_byte_of_Z, IH.
    + pose proof (Z.div_mod v 256 ltac:(lia)). lia.
    + split; [apply Z.div_pos; lia|].
      apply Z.div_lt_upper_bound; lia.
Qed.

(** ** Reading what lies ahead *)

Lemma read_ahead f a b :
  ahead f (a ++ b) ->
  read (len a) f = (Ok a, advanced f (len a) (len a))
  /\ ahead (advanced f (len a) (len a)) b.
Proof.
  intros [Hp [rest Hd]]. unfold read, advanced.
  assert (peek f (len a) = a) as Hpk.
  { unfold peek, slice. destruct (len (content f) <=? pos f) eqn:E.
    - apply Z.leb_le in E. rewrite drop_ge in Hd by (unfold len in E; lia).
      symmetry in Hd. apply app_eq_nil in Hd as [Ha _].
      apply app_eq_nil in Ha as [-> _]. reflexivity.
    - rewrite Hd, <- app_assoc. unfold len. rewrite length_app.
      replace (Z.to_nat _) with (length a) by lia.
      by rewrite take_app_length. }
  rewrite Hpk. split; [reflexivity|]. split; simpl.
  - pose proof (len_nonneg a). lia.
  - exists rest. unfold len.
    replace (Z.to_nat (pos f + Z.of_nat (length a)))
      with (Z.to_nat (pos f) + length a)%nat by lia.
    rewrite <- drop_drop, Hd, <- app_assoc. by rewrite drop_app_length.
Qed.

Lemma read_unsigned_ahead (w : nat) v f b :
  0 <= v < 256 ^ Z.of_nat w ->
  ahead f (le_encode w v ++ b) ->
  read_unsigned w f = (Ok v, advanced f (Z.of_nat w) (Z.of_nat w))
  /\ ahead (advanced f (Z.of_nat w) (Z.of_nat w)) b.
Proof.
  intros Hv Ha. destruct (read_ahead _ _ _ Ha) as [Hr Hb].
  unfold len in Hr, Hb. rewrite length_le_encode in Hr, Hb.
  split; [|exact Hb]. unfold read_unsigned.
  erewrite bind_ok by exact Hr.
  rewrite unpack_unsigned_ok by apply length_le_encode.
  by rewrite le_decode_encode.
Qed.


Lemma read_exact f a b n :
  len a = n -> ahead f (a ++ b) ->
  read n f = (Ok a, advanced f n n) /\ ahead (advanced f n n) b.
Proof. intros <-. apply read_ahead. Qed.

Lemma len_le_encode w v : len (le_encode w v) = Z.of_nat w.
Proof. unfold len. by rewrite length_le_encode. Qed.

(** ** [read_string] on well-formed and on truncated input *)

Lemma read_string_ahead f s rest :
  utf8_valid s = true ->
  len s <= max_string_length ->
  ahead f (string_bytes s ++ rest) ->
  read_string f = (Ok s, advanced (advanced f 8 8) (len s) (len s))
  /\ ahead (advanced (advanced f 8 8) (len s) (len s)) rest.
Proof.
  intros Hutf Hmax Ha. unfold string_bytes, encode_utf8 in Ha.
  rewrite <- app_assoc in Ha.
  destruct (read_exact f _ _ 8 (len_le_encode 8 _) Ha) as [Hr1 Ha1].
  destruct (read_exact _ _ _ (len s) eq_refl Ha1) as [Hr2 Ha2].
  split; [|exact Ha2]. unfold read_string.
  erewrite bind_ok by exact Hr1.
  rewrite len_le_encode. change (Z.of_nat 8 <? 8) with false. cbv iota.
  erewrite bind_ok by (apply unpack_unsigned_ok, length_le_encode).
  pose proof (len_nonneg s) as Hs0.
  rewrite le_decode_encode by (unfold max_string_length in Hmax; simpl; lia).
  replace (len s >? max_string_length) with false
    by (symmetry; rewrite Z.gtb_ltb; apply Z.ltb_ge; lia).
  erewrite bind_ok by exact Hr2.
  rewrite Z.ltb_irrefl. unfold decode_utf8. by rewrite Hutf.
Qed.

(** X1: a string written as lines 307-308 write it (its length as eight
    little-endian bytes, then its UTF-8 bytes) is read back unchanged by
    [read_string] when it holds at most 1 MiB, and the cursor is left just
    behind it, whatever follows. *)
Theorem read_string_round_trip (f : rfile) (s : pystr) (rest : list byte) :
  utf8_valid s = true ->
  len s <= max_string_length ->
  ahead f (string_bytes s ++ rest) ->
  read_string f
  = (Ok s, {| content := content f; pos := pos f + 8 + len s;
              reqs := reqs f ++ [8; len s] |})
  /\ ahead {| content := content f; pos := pos f + 8 + len s;
              reqs := reqs f ++ [8; len s] |} rest.
Proof.
  intros Hutf Hmax Ha.
  destruct (read_string_ahead f s rest Hutf Hmax Ha) as [Hr Hrest].
  unfold advanced in Hr, Hrest. simpl in Hr, Hrest.
  rewrite <- app_assoc in Hr, Hrest. simpl in Hr, Hrest. done.
Qed.

Lemma read_string_round_trip_witness :
  read_string (at_start (string_bytes (ascii_bytes "tok") ++ ascii_bytes "xy"))
  = (Ok (ascii_bytes "tok"),
     {| content := string_bytes (ascii_bytes "tok") ++ ascii_bytes "xy";
        pos := 11; reqs := [8; 3] |}).
Proof.
  refine (proj1 (read_string_round_trip
    (at_start (string_bytes (ascii_bytes "tok") ++ ascii_bytes "xy"))
    (ascii_bytes "tok") (ascii_bytes "xy") _ _ _)).
  - vm_compute. reflexivity.
  - vm_compute. discriminate.
  - split; [simpl; lia|]. exists []. vm_compute. reflexivity.
Defined.


Lemma len_peek f n :
  0 <= pos f -> 0 <= n ->
  len (peek f n) = Z.max 0 (Z.min n (len (content f) - pos f)).
Proof. apply len_slice. Qed.

(** X2: what a successful [read_string] returns is never shortened or
    padded: the eight bytes at the cursor decode to the length of the
    result, the result is the slice of that many bytes behind them, it is
    well-formed UTF-8 of at most 1 MiB, and the cursor has moved by eight
    plus its length. The file itself is as before. *)
Theorem read_string_sound (f f' : rfile) (s : pystr) :
  read_string f = (Ok s, f') ->
  length (peek f 8) = 8%nat
  /\ le_decode (peek f 8) = len s
  /\ s = slice (content f) (pos f + 8) (len s)
  /\ utf8_valid s = true
  /\ len s <= max_string_length
  /\ f' = {| content := content f; pos := pos f + 8 + len s;
             reqs := reqs f ++ [8; len s] |}.
Proof.
  unfold read_string. intros H.
  apply bind_ok_inv in H as (bs & f1 & Hr & H).
  destruct (len bs <? 8); [discriminate|].
  apply bind_ok_inv in H as (n & f2 & Hu & H).
  apply unpack_unsigned_inv in Hu as (Hl & -> & ->).
  destruct (le_decode bs >? max_string_length) eqn:Hgt.
  { apply bind_ok_inv in H as (? & ? & _ & H). discriminate. }
  apply bind_ok_inv in H as (data & f3 & Hr2 & H).
  unfold read in Hr, Hr2. injection Hr as <- <-. injection Hr2 as <- <-.
  simpl in *.
  set (n := le_decode (peek f 8)) in *.
  set (f1 := {| content := content f; pos := pos f + len (peek f 8);
                reqs := reqs f ++ [8] |}) in *.
  destruct (len (peek f1 n) <? n) eqn:Hshort; [discriminate|].
  unfold decode_utf8 in H. destruct (utf8_valid (peek f1 n)) eqn:Hutf;
    [|discriminate].
  injection H as <- <-.
  apply Z.ltb_ge in Hshort. rewrite Z.gtb_ltb in Hgt. apply Z.ltb_ge in Hgt.
  pose proof (le_decode_range (peek f 8)) as [Hn0 _]. fold n in Hn0.
  pose proof (len_slice_le (content f1) (pos f1) n Hn0) as Hle.
  fold (peek f1 n) in Hle.
  assert (len (peek f1 n) = n) as Hn by lia.
  assert (len (peek f 8) = 8) as H8 by (unfold len; rewrite Hl; reflexivity).
  rewrite Hn. split; [done|]. split; [done|].
  split; [unfold peek, f1; simpl; by rewrite H8|].
  split; [done|]. split; [done|].
  unfold f1. simpl. rewrite H8, <- app_assoc. reflexivity.
Qed.

Lemma read_string_sound_witness :
  le_decode (peek (at_start (string_bytes (ascii_bytes "tok"))) 8) = 3.
Proof.
  refine (proj1 (proj2 (read_string_sound
    (at_start (string_bytes (ascii_bytes "tok")))
    {| content := string_bytes (ascii_bytes "tok"); pos := 11; reqs := [8; 3] |}
    (ascii_bytes "tok") _))).
  vm_compute. reflexivity.
Defined.


(** X3: with fewer than eight bytes left in the file, [read_string] raises
    the [ValueError] of line 22 (end of file in the length field), having
    consumed what was left; it does not go on to [struct.unpack]. *)
Theorem read_string_truncated_length (f : rfile) :
  0 <= pos f ->
  len (content f) - pos f < 8 ->
  read_string f
  = (Raise (ValueError EofInStringLength),
     {| content := content f; pos := Z.max (pos f) (len (content f));
        reqs := reqs f ++ [8] |}).
Proof.
  intros Hp Hshort. unfold read_string.
  erewrite bind_ok by reflexivity.
  pose proof (len_peek f 8 Hp ltac:(lia)) as Hl.
  replace (len (peek f 8) <? 8) with true by (symmetry; apply Z.ltb_lt; lia).
  unfold raise. do 2 f_equal. lia.
Qed.

Lemma read_string_truncated_length_witness :
  read_string (at_start (ascii_bytes "abc"))
  = (Raise (ValueError EofInStringLength),
     {| content := ascii_bytes "abc"; pos := 3; reqs := [8] |}).
Proof.
  apply (read_string_truncated_length (at_start (ascii_bytes "abc"))).
  - simpl. lia.
  - vm_compute. reflexivity.
Defined.

(** X4: when the length field declares [n] bytes (at most 1 MiB) and fewer
    are left behind it, [read_string] raises the [ValueError] of line 29,
    which reports [n] and the number of bytes that were there; the cursor
    is then at the end of the file. *)
Theorem read_string_truncated_payload (f : rfile) (n : Z) :
  0 <= pos f ->
  pos f + 8 <= len (content f) ->
  le_decode (peek f 8) = n ->
  n <= max_string_length ->
  len (content f) - (pos f + 8) < n ->
  read_string f
  = (Raise (ValueError (EofInString n (len (content f) - (pos f + 8)))),
     {| content := content f; pos := len (content f);
        reqs := reqs f ++ [8; n] |}).
Proof.
  intros Hp Hfield Hn Hmax Hshort. unfold read_string.
  erewrite bind_ok by reflexivity.
  pose proof (len_peek f 8 Hp ltac:(lia)) as Hl.
  assert (len (peek f 8) = 8) as H8 by lia.
  rewrite H8. change (8 <? 8) with false. cbv iota.
  erewrite bind_ok by (apply unpack_unsigned_ok; unfold len in H8; lia).
  rewrite Hn.
  replace (n >? max_string_length) with false
    by (symmetry; rewrite Z.gtb_ltb; apply Z.ltb_ge; lia).
  erewrite bind_ok by reflexivity.
  set (f1 := {| content := content f; pos := pos f + 8; reqs := reqs f ++ [8] |}).
  pose proof (le_decode_range (peek f 8)) as [Hn0 _]. rewrite Hn in Hn0.
  pose proof (len_peek f1 n ltac:(simpl; lia) Hn0) as Hl2. simpl in Hl2.
  replace (len (peek f1 n) <? n) with true by (symmetry; apply Z.ltb_lt; lia).
  unfold raise. simpl. rewrite <- app_assoc. simpl.
  f_equal; [do 3 f_equal; lia | f_equal; lia].
Qed.

Lemma read_string_truncated_payload_witness :
  read_string (at_start (le_encode 8 5 ++ ascii_bytes "ab"))
  = (Raise (ValueError (EofInString 5 2)),
     {| content := le_encode 8 5 ++ ascii_bytes "ab"; pos := 10;
        reqs := [8; 5] |}).
Proof.
  apply (read_string_truncated_payload
           (at_start (le_encode 8 5 ++ ascii_bytes "ab")) 5).
  - simpl. lia.
  - vm_compute. discriminate.
  - vm_compute. reflexivity.
  - vm_compute. discriminate.
  - vm_compute. reflexivity.
Defined.


(** ** [read_tensor_info] reads back what the shard loop writes *)

Lemma read_dims_ahead (ds : list Z) : forall (xs : list Z) acc f rest,
  length xs = length ds ->
  Forall (fun d => 0 <= d < 2 ^ 64) ds ->
  ahead f (concat (le_encode 8 <$> ds) ++ rest) ->
  exists f',
    for_each xs (fun _ dims => let* d := read_unsigned 8 in
                               se_ret (Next (dims ++ [d]))) acc f
    = (Ok (acc ++ ds), f')
    /\ content f' = content f
    /\ pos f' = pos f + 8 * len ds
    /\ ahead f' rest.
Proof.
  induction ds as [|d ds IH]; intros xs acc f rest Hlen Hds Ha.
  - destruct xs; [|discriminate]. exists f. simpl in *.
    rewrite app_nil_r. unfold len. simpl. repeat split; [lia | apply Ha..].
  - destruct xs as [|x xs]; [discriminate|]. injection Hlen as Hlen.
    apply Forall_cons in Hds as [Hd Hds].
    rewrite fmap_cons, concat_cons, <- app_assoc in Ha.
    destruct (read_unsigned_ahead 8 d f _ ltac:(simpl; lia) Ha) as [Hr Ha1].
    destruct (IH xs (acc ++ [d]) _ rest Hlen Hds Ha1) as (f' & E & Hc & Hp & Hr').
    exists f'. cbn [for_each].
    erewrite bind_ok by (erewrite bind_ok by exact Hr; reflexivity).
    cbv beta iota. rewrite E, <- app_assoc. simpl in Hc, Hp.
    repeat split; [done | | apply Hr' | apply Hr'].
    rewrite Hp. unfold len. simpl length. lia.
Qed.

Lemma read_tensor_info_ahead (f : rfile) nm ds ty off rest :
  utf8_valid nm = true ->
  len nm <= max_string_length ->
  len ds < 2 ^ 32 ->
  Forall (fun d => 0 <= d < 2 ^ 64) ds ->
  0 <= ty < 2 ^ 32 ->
  0 <= off < 2 ^ 64 ->
  ahead f (descriptor_bytes nm ds ty off ++ rest) ->
  exists f',
    read_tensor_info f = (Ok (nm, ds, ty, off), f')
    /\ content f' = content f
    /\ pos f' = pos f + len (descriptor_bytes nm ds ty off)
    /\ ahead f' rest.
Proof.
  intros Hutf Hmax Hnd Hds Hty Hoff Ha.
  unfold descriptor_bytes in Ha. rewrite <- !app_assoc in Ha.
  rewrite (app_assoc (le_encode 8 (len nm)) nm) in Ha.
  change (le_encode 8 (len nm) ++ nm) with (string_bytes nm) in Ha.
  destruct (read_string_ahead f nm _ Hutf Hmax Ha) as [E1 A1].
  pose proof (len_nonneg ds) as Hd0.
  destruct (read_unsigned_ahead 4 (len ds) _ _ ltac:(simpl; lia) A1) as [E2 A2].
  destruct (read_dims_ahead ds (range (len ds)) [] _ _
              ltac:(rewrite length_range; unfold len; lia) Hds A2)
    as (f3 & E3 & C3 & P3 & A3).
  destruct (read_unsigned_ahead 4 ty _ _ ltac:(simpl; lia) A3) as [E4 A4].
  destruct (read_unsigned_ahead 8 off _ _ ltac:(simpl; lia) A4) as [E5 A5].
  eexists. split; [|split; [|split; [|exact A5]]].
  - unfold read_tensor_info.
    erewrite bind_ok by exact E1. erewrite bind_ok by exact E2.
    erewrite bind_ok by exact E3. erewrite bind_ok by exact E4.
    erewrite bind_ok by exact E5. reflexivity.
  - simpl. exact C3.
  - simpl. rewrite P3. simpl. unfold descriptor_bytes.
    rewrite !len_app, !len_le_encode.
    assert (len (concat (le_encode 8 <$> ds)) = 8 * len ds) as ->.
    { clear. induction ds as [|d ds IH]; [reflexivity|].
      rewrite fmap_cons, concat_cons, len_app, len_le_encode, IH.
      unfold len. simpl length. lia. }
    lia.
Qed.

(** X5: a descriptor laid out as lines 306-313 write it (name as a
    length-prefixed string, dimension count, the dimensions, type, offset)
    is read back by [read_tensor_info] field for field, and the cursor is
    left just behind it, provided the name is well-formed UTF-8 of at most
    1 MiB and every field fits its width. *)
Theorem read_tensor_info_round_trip (f : rfile) nm ds ty off rest :
  utf8_valid nm = true ->
  len nm <= max_string_length ->
  len ds < 2 ^ 32 ->
  Forall (fun d => 0 <= d < 2 ^ 64) ds ->
  0 <= ty < 2 ^ 32 ->
  0 <= off < 2 ^ 64 ->
  ahead f (descriptor_bytes nm ds ty off ++ rest) ->
  exists f',
    read_tensor_info f = (Ok (nm, ds, ty, off), f')
    /\ content f' = content f
    /\ pos f' = pos f + len (descriptor_bytes nm ds ty off)
    /\ ahead f' rest.
Proof.
  intros Hutf Hmax Hnd Hds Hty Hoff Ha.
  by apply read_tensor_info_ahead.
Qed.

Lemma read_tensor_info_round_trip_witness :
  exists f',
    read_tensor_info
      (at_start (descriptor_bytes (ascii_bytes "w") [2; 3] 1 64 ++ ascii_bytes "z"))
    = (Ok (ascii_bytes "w", [2; 3], 1, 64), f')
    /\ pos f' = 41.
Proof.
  destruct (read_tensor_info_round_trip
    (at_start (descriptor_bytes (ascii_bytes "w") [2; 3] 1 64 ++ ascii_bytes "z"))
    (ascii_bytes "w") [2; 3] 1 64 (ascii_bytes "z"))
    as (f' & E & _ & P & _).
  - vm_compute. reflexivity.
  - vm_compute. discriminate.
  - vm_compute. reflexivity.
  - repeat constructor; lia.
  - lia.
  - lia.
  - split; [simpl; lia|]. exists []. vm_compute. reflexivity.
  - exists f'. split; [exact E | exact P].
Defined.


(** ** Parsing a file without metadata *)

Lemma read_tensors_ahead (ts : list tensor_info) : forall (xs : list Z) acc f rest,
  length xs = length ts ->
  Forall readable ts ->
  ahead f (concat (descriptor_of <$> ts) ++ rest) ->
  exists f',
    for_each xs (fun _ => read_tensor) acc f = (Ok (acc ++ ts), f')
    /\ content f' = content f
    /\ ahead f' rest.
Proof.
  induction ts as [|t ts IH]; intros xs acc f rest Hlen Hts Ha.
  - destruct xs; [|discriminate]. exists f. simpl in *.
    rewrite app_nil_r. done.
  - destruct xs as [|x xs]; [discriminate|]. injection Hlen as Hlen.
    apply Forall_cons in Hts as [Ht Hts].
    destruct Ht as (Hutf & Hmax & Hnd & Hds & Hty & Hoff & Hsize).
    rewrite fmap_cons, concat_cons, <- app_assoc in Ha.
    destruct (read_tensor_info_ahead f _ _ _ _ _ Hutf Hmax Hnd Hds Hty Hoff Ha)
      as (f1 & E1 & C1 & _ & A1).
    destruct (IH xs (acc ++ [t]) f1 rest Hlen Hts A1) as (f' & E & Hc & Hr).
    exists f'. cbn [for_each].
    assert (read_tensor acc f = (Ok (Next (acc ++ [t])), f1)) as Hstep.
    { unfold read_tensor. erewrite bind_ok by exact E1. cbv beta iota.
      unfold se_ret. rewrite <- Hsize. by destruct t. }
    erewrite bind_ok by exact Hstep. cbv beta iota.
    rewrite E, <- app_assoc. split; [done|]. split; [congruence | done].
Qed.




(** ** Reading never changes the file *)

Lemma unchanged_ret {A} (a : A) : unchanged (se_ret a).
Proof. by intros f. Qed.

Lemma unchanged_raise {A} e : unchanged (@raise rfile A e).
Proof. by intros f. Qed.

Lemma unchanged_bind {A B} (m : SE rfile A) (k : A -> SE rfile B) :
  unchanged m -> (forall a, unchanged (k a)) -> unchanged (se_bind m k).
Proof.
  intros Hm Hk f. unfold se_bind. specialize (Hm f).
  destruct (m f) as [[a|e] f1]; simpl in *; [|done].
  by rewrite Hk.
Qed.

Lemma unchanged_for_each {X A} (body : X -> A -> SE rfile (flow A)) xs :
  (forall x a, unchanged (body x a)) -> forall a, unchanged (for_each xs body a).
Proof.
  intros Hb. induction xs as [|x xs IH]; intros a; simpl.
  - apply unchanged_ret.
  - apply unchanged_bind; [apply Hb|].
    intros [a'|a']; [apply IH | apply unchanged_ret].
Qed.

Lemma unchanged_read n : unchanged (read n).
Proof. by intros f. Qed.

Lemma unchanged_tell : unchanged tell.
Proof. by intros f. Qed.

Lemma unchanged_seek_end : unchanged seek_end.
Proof. by intros f. Qed.

Lemma unchanged_unpack_unsigned w bs : unchanged (unpack_unsigned w bs).
Proof. intros f. unfold unpack_unsigned. by case_decide. Qed.

Lemma unchanged_unpack_signed w bs : unchanged (unpack_signed w bs).
Proof. intros f. unfold unpack_signed. by case_decide. Qed.

Lemma unchanged_unpack_bool bs : unchanged (unpack_bool bs).
Proof. intros f. unfold unpack_bool. by case_decide. Qed.

Lemma unchanged_decode_utf8 bs : unchanged (decode_utf8 bs).
Proof. intros f. unfold decode_utf8. by destruct (utf8_valid bs). Qed.

Create HintDb unchanged.
#[local] Hint Resolve unchanged_ret unchanged_raise unchanged_read unchanged_tell
  unchanged_seek_end unchanged_unpack_unsigned unchanged_unpack_signed
  unchanged_unpack_bool unchanged_decode_utf8 : unchanged.

Ltac unchanged_steps :=
  repeat first
    [ progress auto with unchanged
    | apply unchanged_bind; [|intros ?]
    | apply unchanged_for_each; intros ? ?
    | match goal with
      | |- unchanged (if ?b then _ else _) => destruct b
      | |- unchanged (match ?x with _ => _ end) => destruct x
      end ].

Lemma unchanged_read_unsigned w : unchanged (read_unsigned w).
Proof. unfold read_unsigned. unchanged_steps. Qed.

Lemma unchanged_read_signed w : unchanged (read_signed w).
Proof. unfold read_signed. unchanged_steps. Qed.

Lemma unchanged_read_bool : unchanged read_bool.
Proof. unfold read_bool. unchanged_steps. Qed.

Lemma unchanged_read_string : unchanged read_string.
Proof. unfold read_string. unchanged_steps. Qed.

#[local] Hint Resolve unchanged_read_unsigned unchanged_read_signed
  unchanged_read_bool unchanged_read_string : unchanged.

Lemma unchanged_read_scalar value_type rd :
  read_scalar value_type = Some rd -> unchanged rd.
Proof.
  unfold read_scalar. intros H.
  repeat (case_match; [injection H as <-; unchanged_steps|]). discriminate.
Qed.

Lemma unchanged_read_array skip_of : unchanged (read_array skip_of).
Proof.
  unfold read_array. unchanged_steps.
  unfold read_array_element. unchanged_steps.
Qed.

Lemma unchanged_general_metadata_entry md : unchanged (general_metadata_entry md).
Proof.
  unfold general_metadata_entry.
  apply unchanged_bind; [auto with unchanged | intros key].
  apply unchanged_bind; [auto with unchanged | intros value_type].
  destruct (read_scalar value_type) as [rd|] eqn:E.
  - apply unchanged_bind; [by eapply unchanged_read_scalar | intros ?].
    auto with unchanged.
  - pose proof (unchanged_read_array (fun _ => 4)). unchanged_steps.
Qed.

Lemma unchanged_read_metadata_entry md : unchanged (read_metadata_entry md).
Proof.
  unfold read_metadata_entry.
  apply unchanged_bind; [auto with unchanged | intros key].
  apply unchanged_bind; [auto with unchanged | intros value_type].
  destruct (read_scalar value_type) as [rd|] eqn:E.
  - apply unchanged_bind; [by eapply unchanged_read_scalar | intros ?].
    auto with unchanged.
  - pose proof (unchanged_read_array (fun array_len => 4 * array_len)).
    unchanged_steps.
Qed.

Lemma unchanged_skip_tensor_metadata_entry : unchanged skip_tensor_metadata_entry.
Proof.
  unfold skip_tensor_metadata_entry. unchanged_steps.
  unfold skip_array_element. unchanged_steps.
Qed.

Lemma unchanged_read_tensor_info : unchanged read_tensor_info.
Proof. unfold read_tensor_info. unchanged_steps. Qed.

Lemma unchanged_read_tensor ts : unchanged (read_tensor ts).
Proof.
  unfold read_tensor.
  apply unchanged_bind; [apply unchanged_read_tensor_info|].
  intros [[[nm ds] ty] off]. apply unchanged_ret.
Qed.

Lemma unchanged_step {A} (m : SE rfile A) f r f' :
  unchanged m -> m f = (r, f') -> content f' = content f.
Proof. intros Hm E. specialize (Hm f). by rewrite E in Hm. Qed.


Lemma unchanged_read_sections v : unchanged (read_sections v).
Proof.
  unfold read_sections.
  apply unchanged_bind; [auto with unchanged | intros gc].
  apply unchanged_bind; [auto with unchanged | intros tc].
  apply unchanged_bind;
    [apply unchanged_for_each; intros ? ?; apply unchanged_general_metadata_entry
    | intros md].
  apply unchanged_bind;
    [apply unchanged_for_each; intros ? ?; apply unchanged_skip_tensor_metadata_entry
    | intros ?].
  apply unchanged_bind; [auto with unchanged | intros nt].
  apply unchanged_bind;
    [apply unchanged_for_each; intros ? ?; apply unchanged_read_tensor | intros ts].
  unchanged_steps.
Qed.

Lemma unchanged_read_container : unchanged read_container.
Proof.
  unfold read_container.
  apply unchanged_bind; [auto with unchanged | intros magic].
  destruct (negb _); [auto with unchanged|].
  apply unchanged_bind; [auto with unchanged | intros v].
  apply unchanged_read_sections.
Qed.

(** X7: whenever the reading part of [split_gguf] gets through a file, the
    [data_start] it computes is the size of the whole file, equal to
    [file_size]: the cursor had been moved to the end (line 258) before
    either [f.tell()] was taken.  The file's bytes are as they were. *)
Theorem data_start_is_file_size (f f' : rfile) (c : container) :
  read_container f = (Ok (Some c), f') ->
  data_start c = len (content f)
  /\ file_size c = len (content f)
  /\ pos f' = len (content f)
  /\ content f' = content f.
Proof.
  intros H.
  pose proof (unchanged_step _ _ _ _ unchanged_read_container H) as Hc.
  split; [|split; [|split; [|exact Hc]]]; revert H;
    unfold read_container; intros H;
    apply bind_ok_inv in H as (magic & f1 & Hr & H);
    pose proof (unchanged_step _ _ _ _ (unchanged_read 4) Hr) as C1;
    (destruct (negb _); [discriminate|]);
    apply bind_ok_inv in H as (ver & f2 & Hver & H);
    pose proof (unchanged_step _ _ _ _ (unchanged_read_unsigned 4) Hver) as C2;
    unfold read_sections in H;
    apply bind_ok_inv in H as (gc & f3 & H3 & H);
    apply bind_ok_inv in H as (tc & f4 & H4 & H);
    apply bind_ok_inv in H as (md & f5 & H5 & H);
    apply bind_ok_inv in H as (u & f6 & H6 & H);
    apply bind_ok_inv in H as (nt & f7 & H7 & H);
    apply bind_ok_inv in H as (ts & f8 & H8 & H);
    apply bind_ok_inv in H as (u' & f9 & H9 & H);
    apply bind_ok_inv in H as (fs & f10 & H10 & H);
    apply bind_ok_inv in H as (ds & f11 & H11 & H);
    unfold seek_end in H9; unfold tell in H10, H11;
    injection H9 as _ <-; injection H10 as <- <-; injection H11 as <- <-;
    injection H as <- <-; simpl;
    (assert (content f8 = content f) as ->; [|reflexivity]);
    rewrite <- Hc; reflexivity.
Qed.

Lemma data_start_is_file_size_witness :
  data_start c3 = len src3 /\ file_size c3 = len src3.
Proof.
  destruct (data_start_is_file_size (at_start src3)
              (read_container (at_start src3)).2 c3) as (Hd & Hf & _).
  - vm_compute. reflexivity.
  - split; [exact Hd | exact Hf].
Defined.


(** ** [get_tensor_size] *)

Lemma foldl_mul (ds : list Z) : forall a,
  foldl (fun total dim => total * dim) a ds = a * foldr Z.mul 1 ds.
Proof.
  induction ds as [|d ds IH]; intros a; simpl; [lia|]. rewrite IH. lia.
Qed.

Lemma element_size_range (ty : Z) : 1 <= default 4 (type_sizes !! ty) <= 4.
Proof.
  unfold type_sizes, list_to_map. cbn [foldr uncurry fst snd].
  repeat match goal with
  | |- context [<[?k := _]> _ !! ty] =>
      destruct (decide (ty = k)) as [->|];
        [rewrite lookup_insert_eq; simpl; lia
        | rewrite lookup_insert_ne by done]
  end.
  rewrite lookup_empty. simpl. lia.
Qed.

Lemma product_nonneg (ds : list Z) :
  Forall (fun d => 0 <= d) ds -> 0 <= foldr Z.mul 1 ds.
Proof. induction 1 as [|d ds Hd _ IH]; simpl; [lia | nia]. Qed.

Lemma product_zero (ds : list Z) : 0 ∈ ds -> foldr Z.mul 1 ds = 0.
Proof.
  induction ds as [|d ds IH]; intros H.
  - by apply elem_of_nil in H.
  - simpl. apply elem_of_cons in H as [<- | H]; [lia | rewrite IH by done; lia].
Qed.

Lemma product_perm (ds ds' : list Z) :
  ds ≡ₚ ds' -> foldr Z.mul 1 ds = foldr Z.mul 1 ds'.
Proof.
  induction 1 as [|x l l' _ IH|x y l|l l' l'' _ IH1 _ IH2]; simpl;
    [done | by rewrite IH | lia | congruence].
Qed.

Lemma get_tensor_size_product dims ty :
  get_tensor_size dims ty
  = foldr Z.mul 1 dims * default 4 (type_sizes !! ty).
Proof. unfold get_tensor_size. rewrite foldl_mul. lia. Qed.

(** X8: for dimensions that are not negative (as every dimension read from
    an unsigned field is), the size [get_tensor_size] computes lies between
    the number of elements and four times that number, whatever the type
    code, known or not; so it is never negative.  A tensor with a zero
    dimension has size 0, and the order of the dimensions does not matter. *)
Theorem get_tensor_size_range (dims : list Z) (ty : Z) :
  Forall (fun d => 0 <= d) dims ->
  foldr Z.mul 1 dims <= get_tensor_size dims ty <= 4 * foldr Z.mul 1 dims
  /\ 0 <= get_tensor_size dims ty
  /\ (0 ∈ dims -> get_tensor_size dims ty = 0)
  /\ (forall dims', dims' ≡ₚ dims ->
        get_tensor_size dims' ty = get_tensor_size dims ty).
Proof.
  intros Hds. rewrite get_tensor_size_product.
  pose proof (element_size_range ty) as Hes.
  pose proof (product_nonneg dims Hds) as Hp.
  split; [nia|]. split; [nia|]. split.
  - intros H0. rewrite product_zero by done. lia.
  - intros dims' Hperm. rewrite get_tensor_size_product.
    by rewrite (product_perm _ _ Hperm).
Qed.

Lemma get_tensor_size_range_witness :
  2 * 3 <= get_tensor_size [2; 3] 1 <= 4 * (2 * 3)
  /\ get_tensor_size [3; 2] 1 = get_tensor_size [2; 3] 1.
Proof.
  destruct (get_tensor_size_range [2; 3] 1) as (Hb & _ & _ & Hperm).
  - repeat constructor; lia.
  - split; [exact Hb|]. apply Hperm. apply Permutation_swap.
Defined.


(** ** What a parsed catalog holds *)

Lemma read_string_valid f s f' :
  read_string f = (Ok s, f') -> utf8_valid s = true.
Proof.
  unfold read_string. intros H.
  apply bind_ok_inv in H as (bs & f1 & _ & H).
  destruct (len bs <? 8); [discriminate|].
  apply bind_ok_inv in H as (n & f2 & _ & H).
  destruct (n >? max_string_length).
  { apply bind_ok_inv in H as (? & ? & _ & H). discriminate. }
  apply bind_ok_inv in H as (data & f3 & _ & H).
  destruct (len data <? n); [discriminate|].
  unfold decode_utf8 in H. destruct (utf8_valid data) eqn:E; [|discriminate].
  by injection H as <- _.
Qed.

Lemma read_tensor_info_readable f nm ds ty off f' :
  read_tensor_info f = (Ok (nm, ds, ty, off), f') ->
  readable {| name := nm; dims := ds; type := ty; offset := off;
              size := get_tensor_size ds ty |}.
Proof.
  intros H.
  pose proof (read_tensor_info_inv _ _ _ _ _ _ H) as (Hnm & Hnd & Hds & Hty).
  unfold read_tensor_info in H.
  apply bind_ok_inv in H as (nm' & f1 & Hs & H).
  apply bind_ok_inv in H as (n_dims & f2 & _ & H).
  apply bind_ok_inv in H as (ds' & f3 & _ & H).
  apply bind_ok_inv in H as (ty' & f4 & _ & H).
  apply bind_ok_inv in H as (off' & f5 & Hoff & H).
  injection H as -> _ _ -> _.
  apply read_string_valid in Hs. apply read_unsigned_inv in Hoff as [Hoff _].
  unfold readable. simpl. done.
Qed.

Lemma read_tensors_inv nt f ts f' :
  for_each (range nt) (fun _ => read_tensor) [] f = (Ok ts, f') ->
  length ts = Z.to_nat nt /\ Forall readable ts.
Proof.
  intros Hloop.
  pose proof (for_each_invariant
    (fun k l => length l = k /\ Forall readable l) (fun _ : Z => read_tensor))
    as Hinv.
  assert (length (@nil tensor_info) = O /\ Forall readable []) as H0
    by (split; [done | constructor]).
  eapply Hinv in Hloop; [|clear Hloop|exact H0].
  - by rewrite length_range in Hloop.
  - intros x a s r s' k [Hk Ha] Hb. unfold read_tensor in Hb.
    apply bind_ok_inv in Hb as ([[[nm ds] ty] off] & s1 & Hi & Hb).
    injection Hb as <- <-. apply read_tensor_info_readable in Hi.
    eexists. split; [reflexivity|]. split.
    + rewrite length_app. simpl. lia.
    + apply Forall_app. split; [done|]. by constructor.
Qed.

Lemma readable_size_nonneg t : readable t -> 0 <= size t.
Proof.
  intros (_ & _ & _ & Hds & _ & _ & ->).
  rewrite get_tensor_size_product.
  pose proof (element_size_range (type t)).
  assert (0 <= foldr Z.mul 1 (dims t)); [|nia].
  apply product_nonneg. eapply Forall_impl; [exact Hds|]. simpl. lia.
Qed.

(** X9: whenever the reading part of [split_gguf] gets through a file, the
    catalog holds exactly [num_tensors] entries, and every entry has a
    well-formed UTF-8 name of at most 1 MiB, fewer than [2^32] dimensions,
    each below [2^64], a type below [2^32], an offset below [2^64] and
    the size [get_tensor_size] gives for its dimensions and type, which is
    not negative: the copy never passes a negative size to [f.read]. *)
Theorem parsed_catalog_readable (f f' : rfile) (c : container) :
  read_container f = (Ok (Some c), f') ->
  num_tensors c = len (tensors c)
  /\ Forall readable (tensors c)
  /\ Forall (fun t => 0 <= size t) (tensors c).
Proof.
  unfold read_container. intros H.
  apply bind_ok_inv in H as (magic & f1 & _ & H).
  destruct (negb _); [discriminate|].
  apply bind_ok_inv in H as (ver & f2 & _ & H).
  unfold read_sections in H.
  apply bind_ok_inv in H as (gc & f3 & _ & H).
  apply bind_ok_inv in H as (tc & f4 & _ & H).
  apply bind_ok_inv in H as (md & f5 & _ & H).
  apply bind_ok_inv in H as (u & f6 & _ & H).
  apply bind_ok_inv in H as (nt & f7 & Hnt & H).
  apply bind_ok_inv in H as (ts & f8 & Hloop & H).
  apply bind_ok_inv in H as (u' & f9 & _ & H).
  apply bind_ok_inv in H as (fs & f10 & _ & H).
  apply bind_ok_inv in H as (dst & f11 & _ & H).
  injection H as <- _. simpl.
  apply read_unsigned_inv in Hnt as [Hnt _].
  apply read_tensors_inv in Hloop as [Hlen Hall].
  split; [unfold len; lia|]. split; [done|].
  eapply Forall_impl; [exact Hall|]. apply readable_size_nonneg.
Qed.

Lemma parsed_catalog_readable_witness :
  num_tensors c3 = len (tensors c3) /\ Forall readable (tensors c3).
Proof.
  destruct (parsed_catalog_readable (at_start src3)
              (read_container (at_start src3)).2 c3) as (Hn & Hr & _).
  - vm_compute. reflexivity.
  - split; [exact Hn | exact Hr].
Defined.


(** ** [read_metadata] *)

(** X10: when the eight bytes at the cursor declare more than 10000
    entries, [read_metadata] raises the [ValueError] of line 41 with that
    count, having read nothing but the count. *)
Theorem read_metadata_too_many (f : rfile) (n : Z) :
  length (peek f 8) = 8%nat ->
  le_decode (peek f 8) = n ->
  n > 10000 ->
  read_metadata f
  = (Raise (ValueError (TooManyMetadata n)),
     {| content := content f; pos := pos f + 8; reqs := reqs f ++ [8] |}).
Proof.
  intros Hl Hn Hbig. unfold read_metadata.
  erewrite bind_ok by (by apply read_unsigned_ok).
  change (Z.of_nat 8) with 8. rewrite Hn.
  replace (n >? 10000) with true by (symmetry; apply Z.gtb_lt; lia).
  unfold raise, read. simpl. unfold len. rewrite Hl. reflexivity.
Qed.

Lemma read_metadata_too_many_witness :
  read_metadata (at_start (le_encode 8 10001))
  = (Raise (ValueError (TooManyMetadata 10001)),
     {| content := le_encode 8 10001; pos := 8; reqs := [8] |}).
Proof.
  apply (read_metadata_too_many (at_start (le_encode 8 10001)) 10001).
  - reflexivity.
  - reflexivity.
  - reflexivity.
Defined.

Lemma read_metadata_entry_ahead f e rest md :
  entry_ok e ->
  ahead f (entry_bytes e ++ rest) ->
  exists f',
    read_metadata_entry md f = (Ok (Next (<[e.1 := entry_pyval e.2]> md)), f')
    /\ ahead f' rest.
Proof.
  destruct e as [k v]. intros (Hk & Hkl & Hv) Ha. cbn [fst snd] in *.
  unfold entry_bytes in Ha. cbn [fst snd] in Ha.
  destruct v as [v|s]; rewrite <- !app_assoc in Ha;
    destruct (read_string_ahead f k _ Hk Hkl Ha) as [E1 A1];
    unfold read_metadata_entry; (erewrite bind_ok by exact E1).
  - destruct (read_unsigned_ahead 4 4 _ _ ltac:(simpl; lia) A1) as [E2 A2].
    destruct (read_unsigned_ahead 4 v _ _ ltac:(simpl; lia) A2) as [E3 A3].
    erewrite bind_ok by exact E2.
    change (read_scalar 4)
      with (Some (let* v := read_unsigned 4 in se_ret (PyInt v))).
    cbv beta iota.
    erewrite bind_ok by (erewrite bind_ok by exact E3; reflexivity).
    eexists. split; [reflexivity | exact A3].
  - destruct Hv as [Hs Hsl].
    destruct (read_unsigned_ahead 4 8 _ _ ltac:(simpl; lia) A1) as [E2 A2].
    destruct (read_string_ahead _ s _ Hs Hsl A2) as [E3 A3].
    erewrite bind_ok by exact E2.
    change (read_scalar 8)
      with (Some (let* s := read_string in se_ret (PyStr s))).
    cbv beta iota.
    erewrite bind_ok by (erewrite bind_ok by exact E3; reflexivity).
    eexists. split; [reflexivity | exact A3].
Qed.

Lemma read_entries_ahead (es : list (pystr * entry_value)) :
  forall (xs : list Z) md f rest,
    length xs = length es ->
    Forall entry_ok es ->
    ahead f (concat (entry_bytes <$> es) ++ rest) ->
    exists f',
      for_each xs (fun _ => read_metadata_entry) md f
      = (Ok (foldl (fun md e => <[e.1 := entry_pyval e.2]> md) md es), f')
      /\ ahead f' rest.
Proof.
  induction es as [|e es IH]; intros xs md f rest Hlen Hes Ha.
  - destruct xs; [|discriminate]. exists f. simpl in *. done.
  - destruct xs as [|x xs]; [discriminate|]. injection Hlen as Hlen.
    apply Forall_cons in Hes as [He Hes].
    rewrite fmap_cons, concat_cons, <- app_assoc in Ha.
    destruct (read_metadata_entry_ahead f e _ md He Ha) as (f1 & E1 & A1).
    destruct (IH xs (<[e.1 := entry_pyval e.2]> md) f1 rest Hlen Hes A1)
      as (f' & E & A).
    exists f'. cbn [for_each foldl].
    erewrite bind_ok by exact E1. cbv beta iota. done.
Qed.

Lemma assign_all_snoc es e :
  assign_all (es ++ [e]) = <[e.1 := entry_pyval e.2]> (assign_all es).
Proof. unfold assign_all. by rewrite foldl_app. Qed.

Lemma assign_all_last es1 k v : forall es2,
  k ∉ es2.*1 ->
  assign_all (es1 ++ (k, v) :: es2) !! k = Some (entry_pyval v).
Proof.
  intros es2. induction es2 as [|e es2 IH] using rev_ind; intros Hk.
  - rewrite assign_all_snoc. simpl. by rewrite lookup_insert_eq.
  - rewrite fmap_app, not_elem_of_app in Hk. destruct Hk as [Hk He].
    rewrite app_comm_cons, app_assoc, assign_all_snoc.
    rewrite lookup_insert_ne; [by apply IH|].
    intros Heq. apply He. simpl. rewrite Heq. apply elem_of_cons. by left.
Qed.


Lemma assign_all_absent k : forall es,
  k ∉ es.*1 -> assign_all es !! k = None.
Proof.
  intros es. induction es as [|e es IH] using rev_ind; intros Hk.
  - apply lookup_empty.
  - rewrite fmap_app, not_elem_of_app in Hk. destruct Hk as [Hk He].
    rewrite assign_all_snoc, lookup_insert_ne; [by apply IH|].
    intros Heq. apply He. simpl. rewrite Heq. apply elem_of_cons. by left.
Qed.

(** X11: a metadata section laid out as the format has it (the count, then
    for each entry the key, the type tag and the value), with at most 10000
    UINT32 and STRING entries, is read by [read_metadata] into a dict that
    maps every key to the value of its last entry (a repeated key is
    overwritten) and holds no other key; the cursor is left just behind
    the section. *)
Theorem read_metadata_round_trip (f : rfile) es rest :
  Forall entry_ok es ->
  len es <= 10000 ->
  ahead f (metadata_bytes es ++ rest) ->
  exists md f',
    read_metadata f = (Ok md, f')
    /\ ahead f' rest
    /\ (forall es1 k v es2,
          es = es1 ++ (k, v) :: es2 -> k ∉ es2.*1 ->
          md !! k = Some (entry_pyval v))
    /\ (forall k, k ∉ es.*1 -> md !! k = None).
Proof.
  intros Hes Hn Ha. unfold metadata_bytes in Ha. rewrite <- app_assoc in Ha.
  pose proof (len_nonneg es) as Hn0.
  destruct (read_unsigned_ahead 8 (len es) _ _ ltac:(simpl; lia) Ha) as [E1 A1].
  destruct (read_entries_ahead es (range (len es)) ∅ _ _
              ltac:(rewrite length_range; unfold len; lia) Hes A1)
    as (f' & E2 & A2).
  exists (assign_all es), f'. split; [|split; [exact A2|split]].
  - unfold read_metadata. erewrite bind_ok by exact E1.
    replace (len es >? 10000) with false
      by (symmetry; rewrite Z.gtb_ltb; apply Z.ltb_ge; lia).
    exact E2.
  - intros es1 k v es2 -> Hk. by apply assign_all_last.
  - intros k Hk. by apply assign_all_absent.
Qed.

Lemma read_metadata_round_trip_witness :
  exists md f',
    read_metadata
      (at_start (metadata_bytes [(ascii_bytes "k", EUInt32 1);
                                 (ascii_bytes "k", EString (ascii_bytes "v"))]))
    = (Ok md, f')
    /\ md !! ascii_bytes "k" = Some (PyScalar (PyStr (ascii_bytes "v"))).
Proof.
  destruct (read_metadata_round_trip
    (at_start (metadata_bytes [(ascii_bytes "k", EUInt32 1);
                               (ascii_bytes "k", EString (ascii_bytes "v"))]))
    [(ascii_bytes "k", EUInt32 1); (ascii_bytes "k", EString (ascii_bytes "v"))]
    []) as (md & f' & E & _ & Hlast & _).
  - repeat constructor; simpl; try lia; vm_compute; congruence.
  - vm_compute. discriminate.
  - split; [simpl; lia|]. exists []. vm_compute. reflexivity.
  - exists md, f'. split; [exact E|].
    apply (Hlast [(ascii_bytes "k", EUInt32 1)] (ascii_bytes "k")
                 (EString (ascii_bytes "v")) []); [reflexivity|].
    apply not_elem_of_nil.
Defined.


(** ** Arrays in [read_metadata] *)

Lemma range_cons n : 1 <= n -> range n = 0 :: seqZ 1 (n - 1).
Proof.
  intros Hn. unfold range. rewrite seqZ_cons by lia.
  do 2 f_equal; lia.
Qed.

Lemma ahead_bound f bs :
  ahead f bs -> bs <> [] -> pos f + len bs <= len (content f).
Proof.
  intros [Hp [rest Hd]] Hne.
  assert (length (drop (Z.to_nat (pos f)) (content f)) = length (bs ++ rest)) as Hl
    by (by rewrite Hd).
  rewrite length_drop, length_app in Hl.
  destruct bs as [|b bs]; [done|]. unfold len in *. simpl length in *. lia.
Qed.

(** The bytes up to the elements of an array value: key, the ARRAY tag,
    the element type, the element count. *)
Lemma read_array_header f key aty n rest :
  utf8_valid key = true ->
  len key <= max_string_length ->
  0 <= aty < 2 ^ 32 ->
  0 <= n < 2 ^ 64 ->
  ahead f (string_bytes key ++ le_encode 4 9 ++ le_encode 4 aty
           ++ le_encode 8 n ++ rest) ->
  exists f1 f2 f3 f4,
    read_string f = (Ok key, f1)
    /\ read_unsigned 4 f1 = (Ok 9, f2)
    /\ read_unsigned 4 f2 = (Ok aty, f3)
    /\ read_unsigned 8 f3 = (Ok n, f4)
    /\ ahead f4 rest
    /\ content f4 = content f
    /\ pos f4 = pos f + 24 + len key
    /\ reqs f4 = reqs f ++ [8; len key; 4; 4; 8]
    /\ pos f4 <= len (content f).
Proof.
  intros Hk Hkl Haty Hn Ha.
  destruct (read_string_ahead f key _ Hk Hkl Ha) as [E1 A1].
  destruct (read_unsigned_ahead 4 9 _ _ ltac:(simpl; lia) A1) as [E2 A2].
  destruct (read_unsigned_ahead 4 aty _ _ ltac:(simpl; lia) A2) as [E3 A3].
  destruct (read_unsigned_ahead 8 n _ _ ltac:(simpl; lia) A3) as [E4 A4].
  eexists _, _, _, _. split; [exact E1|]. split; [exact E2|].
  split; [exact E3|]. split; [exact E4|]. split; [exact A4|].
  split; [reflexivity|]. split; [simpl; lia|].
  split; [simpl; by rewrite <- !app_assoc|].
  pose proof (ahead_bound _ _ A3) as Hb.
  rewrite len_app, len_le_encode in Hb. simpl in Hb |- *.
  pose proof (len_nonneg rest).
  assert (le_encode 8 n ++ rest <> []) as Hne by (by destruct (le_encode 8 n) eqn:E).
  specialize (Hb Hne). lia.
Qed.

(** X12: an array value that declares more than 1000000 elements makes
    [read_metadata] raise the [ValueError] of line 70 with that count,
    before any element is read; the entries before it are lost with it. *)
Theorem read_metadata_array_too_large (f : rfile) n key aty L rest :
  1 <= n <= 10000 ->
  utf8_valid key = true ->
  len key <= max_string_length ->
  0 <= aty < 2 ^ 32 ->
  1000000 < L < 2 ^ 64 ->
  ahead f (le_encode 8 n ++ string_bytes key ++ le_encode 4 9
           ++ le_encode 4 aty ++ le_encode 8 L ++ rest) ->
  exists f',
    read_metadata f = (Raise (ValueError (ArrayTooLarge L)), f')
    /\ pos f' = pos f + 32 + len key
    /\ ahead f' rest.
Proof.
  intros Hn Hk Hkl Haty HL Ha.
  destruct (read_unsigned_ahead 8 n _ _ ltac:(simpl; lia) Ha) as [E0 A0].
  destruct (read_array_header _ key aty L rest Hk Hkl Haty ltac:(lia) A0)
    as (f1 & f2 & f3 & f4 & E1 & E2 & E3 & E4 & A4 & _ & P4 & _).
  exists f4. split; [|split; [simpl in P4; lia | exact A4]].
  unfold read_metadata. erewrite bind_ok by exact E0.
  replace (n >? 10000) with false
    by (symmetry; rewrite Z.gtb_ltb; apply Z.ltb_ge; lia).
  rewrite range_cons by lia. cbn [for_each].
  apply bind_raise. unfold read_metadata_entry.
  erewrite bind_ok by exact E1. erewrite bind_ok by exact E2.
  change (read_scalar 9) with (@None (SE rfile pyscalar)).
  change (9 =? 9) with true. cbv iota.
  apply bind_raise. unfold read_array.
  erewrite bind_ok by exact E3. erewrite bind_ok by exact E4.
  replace (L >? max_array_len) with true
    by (symmetry; apply Z.gtb_lt; unfold max_array_len; lia).
  reflexivity.
Qed.

Lemma read_metadata_array_too_large_witness :
  exists f',
    read_metadata
      (at_start (le_encode 8 1 ++ string_bytes (ascii_bytes "k") ++ le_encode 4 9
                 ++ le_encode 4 4 ++ le_encode 8 1000001 ++ []))
    = (Raise (ValueError (ArrayTooLarge 1000001)), f')
    /\ pos f' = 33.
Proof.
  destruct (read_metadata_array_too_large
    (at_start (le_encode 8 1 ++ string_bytes (ascii_bytes "k") ++ le_encode 4 9
               ++ le_encode 4 4 ++ le_encode 8 1000001 ++ []))
    1 (ascii_bytes "k") 4 1000001 []) as (f' & E & P & _).
  - lia.
  - vm_compute. reflexivity.
  - vm_compute. discriminate.
  - lia.
  - lia.
  - split; [simpl; lia|]. exists []. vm_compute. reflexivity.
  - exists f'. split; [exact E | exact P].
Defined.


Lemma skip_elements_ok aty skip (value : list pyscalar) : forall (xs : list Z) f,
  aty <> 8 -> aty <> 4 -> aty <> 5 -> aty <> 6 ->
  0 <= skip ->
  0 <= pos f <= len (content f) ->
  exists f',
    for_each xs (fun _ => read_array_element aty skip) value f = (Ok value, f')
    /\ content f' = content f
    /\ reqs f' = reqs f ++ replicate (length xs) skip
    /\ pos f' = Z.min (pos f + Z.of_nat (length xs) * skip) (len (content f)).
Proof.
  intros xs f H8 H4 H5 H6 Hs. revert f.
  induction xs as [|x xs IH]; intros f Hp.
  - exists f. simpl. rewrite app_nil_r. repeat split; lia.
  - pose proof (len_peek f skip ltac:(lia) Hs) as Hl.
    destruct (IH (snd (read skip f))) as (f' & E & C & R & P).
    { simpl. lia. }
    exists f'. cbn [for_each].
    assert (read_array_element aty skip value f = (Ok (Next value), snd (read skip f)))
      as Hstep.
    { unfold read_array_element.
      rewrite !(proj2 (Z.eqb_neq _ _)) by done.
      erewrite bind_ok by reflexivity. reflexivity. }
    erewrite bind_ok by exact Hstep. cbv beta iota. rewrite E.
    simpl in C, R, P. split; [done|]. split; [done|]. split.
    + rewrite R, <- app_assoc. reflexivity.
    + rewrite P. simpl length. nia.
Qed.

(** X13: an array value whose element type is none of 8, 4, 5 and 6 is
    stored by [read_metadata] as the empty list, and its elements are not
    stepped over one by one: for each of the [L] declared elements the
    loop requests [4 * L] bytes (line 83), so up to [4 * L * L] bytes
    behind the count are consumed, or all that is left of the file. *)
Theorem read_metadata_unknown_array_type (f : rfile) key aty L rest :
  utf8_valid key = true ->
  len key <= max_string_length ->
  0 <= aty < 2 ^ 32 ->
  aty <> 8 -> aty <> 4 -> aty <> 5 -> aty <> 6 ->
  0 <= L <= 1000000 ->
  ahead f (le_encode 8 1 ++ string_bytes key ++ le_encode 4 9
           ++ le_encode 4 aty ++ le_encode 8 L ++ rest) ->
  exists f',
    read_metadata f = (Ok {[key := PyList []]}, f')
    /\ reqs f' = reqs f ++ [8; 8; len key; 4; 4; 8]
                        ++ replicate (Z.to_nat L) (4 * L)
    /\ pos f' = Z.min (pos f + 32 + len key + 4 * L * L) (len (content f)).
Proof.
  intros Hk Hkl Haty H8 H4 H5 H6 HL Ha.
  destruct (read_unsigned_ahead 8 1 _ _ ltac:(simpl; lia) Ha) as [E0 A0].
  destruct (read_array_header _ key aty L rest Hk Hkl Haty ltac:(lia) A0)
    as (f1 & f2 & f3 & f4 & E1 & E2 & E3 & E4 & A4 & C4 & P4 & R4 & B4).
  destruct A4 as [Hp4 _]. simpl in C4, P4, R4, B4.
  destruct (skip_elements_ok aty (4 * L) [] (range L) f4 H8 H4 H5 H6
              ltac:(lia) ltac:(rewrite C4; simpl; lia))
    as (f' & E5 & C5 & R5 & P5).
  rewrite length_range in R5, P5.
  exists f'. split; [|split].
  - unfold read_metadata. erewrite bind_ok by exact E0.
    change (1 >? 10000) with false. cbv iota.
    change (range 1) with [0]. cbn [for_each].
    assert (read_metadata_entry ∅ (advanced f (Z.of_nat 8) (Z.of_nat 8))
            = (Ok (Next {[key := PyList []]}), f')) as Hentry.
    { unfold read_metadata_entry.
      erewrite bind_ok by exact E1. erewrite bind_ok by exact E2.
      change (read_scalar 9) with (@None (SE rfile pyscalar)).
      change (9 =? 9) with true. cbv iota.
      assert (read_array (fun array_len => 4 * array_len) f2
              = (Ok (PyList []), f')) as Harr.
      { unfold read_array.
        erewrite bind_ok by exact E3. erewrite bind_ok by exact E4.
        replace (L >? max_array_len) with false
          by (symmetry; rewrite Z.gtb_ltb; apply Z.ltb_ge;
              unfold max_array_len; lia).
        erewrite bind_ok by exact E5. reflexivity. }
      erewrite bind_ok by exact Harr. reflexivity. }
    erewrite bind_ok by exact Hentry. reflexivity.
  - rewrite R5, R4. rewrite <- !app_assoc. reflexivity.
  - rewrite P5, C4, P4. simpl. f_equal. lia.
Qed.

Lemma read_metadata_unknown_array_type_witness :
  exists f',
    read_metadata
      (at_start (le_encode 8 1 ++ string_bytes (ascii_bytes "k") ++ le_encode 4 9
                 ++ le_encode 4 0 ++ le_encode 8 2 ++ ascii_bytes "0123456789abcdefXYZ"))
    = (Ok {[ascii_bytes "k" := PyList []]}, f')
    /\ reqs f' = [8; 8; 1; 4; 4; 8; 8; 8]
    /\ pos f' = 49.
Proof.
  destruct (read_metadata_unknown_array_type
    (at_start (le_encode 8 1 ++ string_bytes (ascii_bytes "k") ++ le_encode 4 9
               ++ le_encode 4 0 ++ le_encode 8 2 ++ ascii_bytes "0123456789abcdefXYZ"))
    (ascii_bytes "k") 0 2 (ascii_bytes "0123456789abcdefXYZ"))
    as (f' & E & R & P); try lia.
  - vm_compute. reflexivity.
  - vm_compute. discriminate.
  - split; [simpl; lia|]. exists []. vm_compute. reflexivity.
  - exists f'. split; [exact E|]. split; [exact R | exact P].
Defined.


(** ** Runs that write no shard *)

(** Up to the end of the parse the run has created the directory and
    touched no file; what follows depends on how the parse ended. *)
Lemma split_gguf_parse input out n s src r f' :
  can_makedirs s out ->
  files s !! input = Some src ->
  read_container (at_start src) = (r, f') ->
  exists s3,
    files s3 = files s
    /\ dirs s3 = made_dirs out ∪ dirs s
    /\ split_gguf input n out s
       = match r with
         | Raise e => (Raise e, s3)
         | Ok None => (Ok false, s3)
         | Ok (Some c) =>
             (if n =? 0 then raise ZeroDivisionError
              else
                let* _ := for_each (range n)
                            (write_shard input out c (num_tensors c / n)
                                         (num_tensors c mod n)) 0 in
                se_ret true) s3
         end.
Proof.
  intros Hmk Hsrc Hrc. unfold split_gguf.
  erewrite bind_ok by (by apply makedirs_ok).
  set (s1 := {| files := files s; dirs := made_dirs out ∪ dirs s;
                cursor := cursor s; log := log s ++ [EvMakedirs out];
                limits := limits s |}).
  erewrite (bind_ok (open_rb input) _ s1 tt (open_rb input s1).2).
  2:{ unfold open_rb, s1. simpl. by rewrite Hsrc. }
  set (s2 := (open_rb input s1).2).
  assert (files s2 = files s /\ dirs s2 = made_dirs out ∪ dirs s /\ cursor s2 = 0)
    as (Hf2 & Hd2 & Hc2).
  { unfold s2, open_rb, s1. simpl. rewrite Hsrc. done. }
  set (s3 := (on_f input read_container s2).2).
  assert (on_f input read_container s2 = (r, s3)) as Hon.
  { unfold s3, on_f. rewrite Hf2, Hsrc, Hc2. simpl.
    change {| content := src; pos := 0; reqs := [] |} with (at_start src).
    by rewrite Hrc. }
  exists s3. split; [|split].
  - destruct (on_f_same input read_container s2) as [E1 _].
    fold s3 in E1. by rewrite E1.
  - destruct (on_f_same input read_container s2) as [_ E2].
    fold s3 in E2. by rewrite E2.
  - destruct r as [[c|]|e].
    + erewrite bind_ok by exact Hon. reflexivity.
    + erewrite bind_ok by exact Hon. reflexivity.
    + erewrite bind_raise by exact Hon. reflexivity.
Qed.









(** ** What a valid run touches *)



(** X19: two shards have the same path only if they have the same number:
    no shard of a run is written over another. *)
Theorem shard_paths_distinct (out : string) (i j : Z) :
  shard_path out i = shard_path out j <-> i = j.
Proof.
  split.
  - apply shard_path_inj.
  - by intros ->.
Qed.

(** ** A shard without tensors cannot be read back *)

Lemma len_header_bytes v count : len (header_bytes v count) = 24.
Proof. unfold header_bytes. by rewrite !len_app, !len_le_encode. Qed.

Lemma header_only_unreadable v :
  0 <= v < 2 ^ 32 ->
  (read_container (at_start (header_bytes v 0))).1 = Raise StructError.
Proof.
  intros Hv.
  assert (ahead (at_start (header_bytes v 0)) (header_bytes v 0 ++ [])) as Ha.
  { split; [simpl; lia|]. by exists []. }
  unfold header_bytes at 2 in Ha. rewrite <- !app_assoc in Ha.
  destruct (read_exact _ GGUF_MAGIC _ 4 eq_refl Ha) as [E0 A0].
  destruct (read_unsigned_ahead 4 v _ _ ltac:(simpl; lia) A0) as [E1 A1].
  destruct (read_unsigned_ahead 8 0 _ _ ltac:(simpl; lia) A1) as [E2 A2].
  destruct (read_unsigned_ahead 8 0 _ _ ltac:(simpl; lia) A2) as [E3 A3].
  unfold read_container. erewrite bind_ok by exact E0.
  rewrite bool_decide_true by reflexivity. cbn [negb].
  erewrite bind_ok by exact E1. unfold read_sections.
  erewrite bind_ok by exact E2. erewrite bind_ok by exact E3.
  change (range 0) with (@nil Z). cbn [for_each].
  erewrite bind_ok by reflexivity. erewrite bind_ok by reflexivity.
  erewrite bind_raise; [reflexivity|].
  unfold read_unsigned. erewrite bind_ok by reflexivity.
  unfold peek, slice. simpl content. simpl pos.
  rewrite len_header_bytes. reflexivity.
Qed.




(** ** Parsing a file with metadata *)

Lemma general_metadata_entry_ahead f e rest md :
  entry_ok e ->
  ahead f (entry_bytes e ++ rest) ->
  exists f',
    general_metadata_entry md f = (Ok (Next (<[e.1 := entry_pyval e.2]> md)), f')
    /\ ahead f' rest.
Proof.
  destruct e as [k v]. intros (Hk & Hkl & Hv) Ha. cbn [fst snd] in *.
  unfold entry_bytes in Ha. cbn [fst snd] in Ha.
  destruct v as [v|s]; rewrite <- !app_assoc in Ha;
    destruct (read_string_ahead f k _ Hk Hkl Ha) as [E1 A1];
    unfold general_metadata_entry; (erewrite bind_ok by exact E1).
  - destruct (read_unsigned_ahead 4 4 _ _ ltac:(simpl; lia) A1) as [E2 A2].
    destruct (read_unsigned_ahead 4 v _ _ ltac:(simpl; lia) A2) as [E3 A3].
    erewrite bind_ok by exact E2.
    change (read_scalar 4)
      with (Some (let* v := read_unsigned 4 in se_ret (PyInt v))).
    cbv beta iota.
    erewrite bind_ok by (erewrite bind_ok by exact E3; reflexivity).
    eexists. split; [reflexivity | exact A3].
  - destruct Hv as [Hs Hsl].
    destruct (read_unsigned_ahead 4 8 _ _ ltac:(simpl; lia) A1) as [E2 A2].
    destruct (read_string_ahead _ s _ Hs Hsl A2) as [E3 A3].
    erewrite bind_ok by exact E2.
    change (read_scalar 8)
      with (Some (let* s := read_string in se_ret (PyStr s))).
    cbv beta iota.
    erewrite bind_ok by (erewrite bind_ok by exact E3; reflexivity).
    eexists. split; [reflexivity | exact A3].
Qed.

Lemma general_entries_ahead (es : list (pystr * entry_value)) :
  forall (xs : list Z) md f rest,
    length xs = length es ->
    Forall entry_ok es ->
    ahead f (concat (entry_bytes <$> es) ++ rest) ->
    exists f',
      for_each xs (fun _ => general_metadata_entry) md f
      = (Ok (foldl (fun md e => <[e.1 := entry_pyval e.2]> md) md es), f')
      /\ ahead f' rest.
Proof.
  induction es as [|e es IH]; intros xs md f rest Hlen Hes Ha.
  - destruct xs; [|discriminate]. exists f. simpl in *. done.
  - destruct xs as [|x xs]; [discriminate|]. injection Hlen as Hlen.
    apply Forall_cons in Hes as [He Hes].
    rewrite fmap_cons, concat_cons, <- app_assoc in Ha.
    destruct (general_metadata_entry_ahead f e _ md He Ha) as (f1 & E1 & A1).
    destruct (IH xs (<[e.1 := entry_pyval e.2]> md) f1 rest Hlen Hes A1)
      as (f' & E & A).
    exists f'. cbn [for_each foldl].
    erewrite bind_ok by exact E1. cbv beta iota. done.
Qed.

Lemma skip_tensor_metadata_entry_ahead f e rest :
  entry_ok e ->
  ahead f (entry_bytes e ++ rest) ->
  exists f',
    skip_tensor_metadata_entry f = (Ok (Next tt), f') /\ ahead f' rest.
Proof.
  destruct e as [k v]. intros (Hk & Hkl & Hv) Ha. cbn [fst snd] in *.
  unfold entry_bytes in Ha. cbn [fst snd] in Ha.
  destruct v as [v|s]; rewrite <- !app_assoc in Ha;
    destruct (read_string_ahead f k _ Hk Hkl Ha) as [E1 A1];
    unfold skip_tensor_metadata_entry; (erewrite bind_ok by exact E1).
  - destruct (read_unsigned_ahead 4 4 _ _ ltac:(simpl; lia) A1) as [E2 A2].
    destruct (read_exact _ (le_encode 4 v) _ 4 (len_le_encode 4 v) A2) as [E3 A3].
    erewrite bind_ok by exact E2.
    change (4 =? 8) with false. change (4 =? 0) with false.
    change (4 =? 1) with false. change (4 =? 7) with false.
    change (4 =? 2) with false. change (4 =? 3) with false.
    change (4 =? 4) with true. cbn [orb]. cbv iota.
    erewrite bind_ok by exact E3.
    eexists. split; [reflexivity | exact A3].
  - destruct Hv as [Hs Hsl].
    destruct (read_unsigned_ahead 4 8 _ _ ltac:(simpl; lia) A1) as [E2 A2].
    destruct (read_string_ahead _ s _ Hs Hsl A2) as [E3 A3].
    erewrite bind_ok by exact E2.
    change (8 =? 8) with true. cbv iota.
    erewrite bind_ok by exact E3.
    eexists. split; [reflexivity | exact A3].
Qed.

Lemma skip_entries_ahead (es : list (pystr * entry_value)) :
  forall (xs : list Z) f rest,
    length xs = length es ->
    Forall entry_ok es ->
    ahead f (concat (entry_bytes <$> es) ++ rest) ->
    exists f',
      for_each xs (fun _ _ => skip_tensor_metadata_entry) tt f = (Ok tt, f')
      /\ ahead f' rest.
Proof.
  induction es as [|e es IH]; intros xs f rest Hlen Hes Ha.
  - destruct xs; [|discriminate]. exists f. simpl in *. done.
  - destruct xs as [|x xs]; [discriminate|]. injection Hlen as Hlen.
    apply Forall_cons in Hes as [He Hes].
    rewrite fmap_cons, concat_cons, <- app_assoc in Ha.
    destruct (skip_tensor_metadata_entry_ahead f e _ He Ha) as (f1 & E1 & A1).
    destruct (IH xs f1 rest Hlen Hes A1) as (f' & E & A).
    exists f'. cbn [for_each].
    erewrite bind_ok by exact E1. cbv beta iota. done.
Qed.





(** ** Tensors that lie inside the source *)

Lemma slice_in_bounds (bs : list byte) o n :
  0 <= o -> 0 <= n -> o + n <= len bs ->
  slice bs o n = take (Z.to_nat n) (drop (Z.to_nat o) bs)
  /\ len (slice bs o n) = n.
Proof.
  intros Ho Hn Hb. split; [|rewrite len_slice by lia; lia].
  unfold slice. destruct (len bs <=? o) eqn:E.
  - apply Z.leb_le in E. replace (Z.to_nat n) with 0%nat by lia.
    by rewrite take_0.
  - apply Z.leb_gt in E. f_equal. unfold len in *. rewrite length_drop. lia.
Qed.

Lemma read_container_readable f c f' :
  read_container f = (Ok (Some c), f') -> Forall readable (tensors c).
Proof.
  unfold read_container. intros H.
  apply bind_ok_inv in H as (magic & f1 & _ & H).
  destruct (negb _); [discriminate|].
  apply bind_ok_inv in H as (ver & f2 & _ & H).
  unfold read_sections in H.
  apply bind_ok_inv in H as (gc & f3 & _ & H).
  apply bind_ok_inv in H as (tc & f4 & _ & H).
  apply bind_ok_inv in H as (md & f5 & _ & H).
  apply bind_ok_inv in H as (u & f6 & _ & H).
  apply bind_ok_inv in H as (nt & f7 & _ & H).
  apply bind_ok_inv in H as (ts & f8 & Hloop & H).
  apply bind_ok_inv in H as (u' & f9 & _ & H).
  apply bind_ok_inv in H as (fs & f10 & _ & H).
  apply bind_ok_inv in H as (dst & f11 & _ & H).
  injection H as <- _. simpl.
  by apply read_tensors_inv in Hloop as [_ Hall].
Qed.

Lemma elem_of_shard_group (ts : list tensor_info) n i t :
  t ∈ shard_group ts n i -> t ∈ ts.
Proof.
  unfold shard_group. intros H.
  apply elem_of_take in H as (k & H & _).
  rewrite lookup_drop in H. by eapply list_elem_of_lookup_2.
Qed.


